(** * nnsight: the intervention-graph tracing engine

    A shallow embedding of
      - [engine/contexts/Invoker.py]  (module [Engine] below), and
      - [src/nnsight/module.py]       (module [Nnsight] below),
    followed by the properties established about them.

    Python integers are unbounded and are modelled by [Z]; Python lists by
    [list]; objects that are shared and mutated in place (modules, classes,
    tracers, graphs) live in stores indexed by references. *)

From Stdlib Require Import ZArith Lia.
From stdpp Require Import base option list strings gmap fin_maps fin_sets.

Local Open Scope Z_scope.

(* ===================================================================== *)
(** * Part I: definitions                                                 *)
(* ===================================================================== *)

(** ** [engine/contexts/Invoker.py] *)

Module Engine.

(** The host computation behind [self.generator.model].  Tokenisation, the
    shape-only run and decoding are external collaborators of the Invoker;
    they are an interface here. *)
Class HostModel := {
  Raw : Type;         (* what the user passes to [invoke] *)
  Token : Type;       (* one input id *)
  Inputs : Type;      (* the dict returned by [prepare_inputs] *)
  CallArgs : Type;    (* [*args, **kwargs] of the invocation *)
  Model : Type;       (* the state of the host model *)
  prepare_inputs : Raw -> Inputs;
  input_ids : Inputs -> list (list Token);       (* [inputs["input_ids"]] *)
  run_meta : Inputs -> CallArgs -> Model -> Model;
  decode : Token -> string;                      (* [tokenizer.decode] *)
  raw_of_strings : list string -> Raw;           (* a list of prompts as raw input *)
}.

(** A value that [__enter__] unwraps when the batch holds one example. *)
Inductive Batched (A : Type) : Type :=
| Batch (l : list A)
| Single (a : A).
Arguments Batch {A} l.
Arguments Single {A} a.

Section WithHost.
Context `{HostModel}.

(** The fields of the session object that the Invoker reads and writes. *)
Record Generator := mkGenerator {
  generation_idx : Z;
  batch_size : Z;
  prompts : list string;
  model : Model;
}.

Record Invoker := mkInvoker {
  input : Raw;
  args : CallArgs;
  tokens : option (Batched (list string));
  ids : option (Batched (list Token));
}.

(** [Invoker.__init__]; the generator is threaded explicitly. *)
Definition __init__ (inp : Raw) (a : CallArgs) : Invoker :=
  mkInvoker inp a None None.

(** ["".join(tokens)] *)
Definition join (toks : list string) : string := String.concat "" toks.

(** [if len(xs) == 1: xs = xs[0]] *)
Definition unwrap1 {A} (xs : list A) : Batched A :=
  match xs with
  | [x] => Single x
  | _ => Batch xs
  end.

(** [Invoker.__enter__] *)
Definition __enter__ (g : Generator) (self : Invoker) : Generator * Invoker :=
  (* self.generator.generation_idx = 0 *)
  let g := mkGenerator 0 (batch_size g) (prompts g) (model g) in
  (* inputs = model.prepare_inputs(self.input); model.run_meta(inputs.copy(), ...) *)
  let inputs := prepare_inputs (input self) in
  let g := mkGenerator (generation_idx g) (batch_size g) (prompts g)
                       (run_meta inputs (args self) (model g)) in
  let toks := map (map decode) (input_ids inputs) in
  let the_ids := input_ids inputs in
  (* self.generator.batch_size = len(self.ids) *)
  let g := mkGenerator (generation_idx g) (Z.of_nat (length the_ids))
                       (prompts g) (model g) in
  (* self.generator.prompts.extend(["".join(tokens) for tokens in self.tokens]) *)
  let g := mkGenerator (generation_idx g) (batch_size g)
                       (prompts g ++ map join toks) (model g) in
  (* if len(self.tokens) == 1: unwrap both *)
  let self :=
    if decide (length toks = 1%nat)
    then mkInvoker (input self) (args self)
                   (Some (unwrap1 toks)) (Some (unwrap1 the_ids))
    else mkInvoker (input self) (args self)
                   (Some (Batch toks)) (Some (Batch the_ids)) in
  (g, self).

(** [Invoker.next] *)
Definition next (g : Generator) (self : Invoker) : Generator :=
  (* self.generator.generation_idx += 1 *)
  let g := mkGenerator (generation_idx g + 1) (batch_size g) (prompts g) (model g) in
  (* inputs = model.prepare_inputs(["_"] * self.generator.batch_size) *)
  let inputs :=
    prepare_inputs (raw_of_strings (repeat "_"%string (Z.to_nat (batch_size g)))) in
  mkGenerator (generation_idx g) (batch_size g) (prompts g)
              (run_meta inputs (args self) (model g)).

(** What a user does with the invokers of one session. *)
Inductive Op :=
| Enter (inv : Invoker)
| Next (inv : Invoker).

Definition step (g : Generator) (op : Op) : Generator :=
  match op with
  | Enter inv => fst (__enter__ g inv)
  | Next inv => next g inv
  end.

Definition run (g : Generator) (ops : list Op) : Generator := foldl step g ops.

(** Entering the scopes of several invokers one after the other. *)
Definition enter_all (g : Generator) (invs : list Invoker) : Generator :=
  run g (map Enter invs).

(** The number of examples of an invocation: the number of input-id
    sequences produced by preparing its raw input. *)
Definition examples (inv : Invoker) : nat :=
  length (input_ids (prepare_inputs (input inv))).

Definition total_examples (invs : list Invoker) : nat :=
  sum_list (map examples invs).

(** The prompts that entering the scope of [inv] appends to the session: the
    decoded tokens of each example, joined. *)
Definition rendered (inv : Invoker) : list string :=
  map join (map (map decode) (input_ids (prepare_inputs (input inv)))).

Definition rendered_by (op : Op) : list string :=
  match op with
  | Enter inv => rendered inv
  | Next _ => []
  end.

(** [["_"] * n] as raw input. *)
Definition filler (n : nat) : Raw := raw_of_strings (repeat "_"%string n).

End WithHost.

(** A small concrete host, used to run the definitions: raw input is the
    list of id sequences itself and a token is decoded to a letter. *)
#[local] Instance toy_host : HostModel := {|
  Raw := list (list nat);
  Token := nat;
  Inputs := list (list nat);
  CallArgs := unit;
  Model := nat;                       (* counts shape-only runs *)
  prepare_inputs := fun r => r;
  input_ids := fun i => i;
  run_meta := fun _ _ m => S m;
  decode := fun t => match t with O => "a"%string | _ => "b"%string end;
  raw_of_strings := fun l => map (fun _ => [O]) l;
|}.

Definition toy_session : Generator := mkGenerator 0 0 [] 0%nat.
Definition toy_A : Invoker := __init__ [[0%nat]] tt.
Definition toy_BB : Invoker := __init__ [[1%nat; 1%nat]] tt.

End Engine.

(** ** [src/nnsight/module.py]

    The class [Module]: its fields, the properties [output] and [input], the
    operations [reset_proxies], [reset], [clear] and [next], and the static
    method [wrap] with its hook.  [__call__] and the property [graph] are not
    part of what is stated below and are left out, and so is the field
    [_graph] that only [graph] uses. *)

Module Nnsight.

(** *** Python values, errors and the result of a call *)

Inductive PyErr :=
| AttributeError
| IndexError
| BadRef.          (* a dangling reference: never raised on a well-formed store *)

Inductive result (A : Type) : Type :=
| Ok (a : A)
| Raise (e : PyErr).
Arguments Ok {A} a.
Arguments Raise {A} e.

(** An exception ends the computation; [x ← r; k] continues on a value. *)
#[global] Instance result_bind : MBind result := λ A B f r,
  match r with
  | Ok a => f a
  | Raise e => Raise e
  end.
#[global] Instance result_ret : MRet result := λ A a, Ok a.

(** [o] if present, else raise [e]. *)
Definition orelse {A} (o : option A) (e : PyErr) : result A :=
  match o with
  | Some a => Ok a
  | None => Raise e
  end.

Record Proxy := mkProxy {
  p_graph : nat;     (* [proxy.node.graph] *)
  p_node : nat;      (* [proxy.node]: its position in that graph *)
}.

Inductive PyVal :=
| VNone
| VBool (b : bool)
| VInt (z : Z)
| VStr (s : string)
| VPair (a b : PyVal)        (* a 2-tuple *)
| VHost (tag : nat)          (* an opaque host value: a tensor, a tuple of tensors, kwargs *)
| VRef (o : nat)             (* a module object *)
| VNode (g n : nat)          (* a graph node *)
| VProxy (p : Proxy).

Definition is_none (v : PyVal) : bool :=
  match v with
  | VNone => true
  | _ => false
  end.

(** [v.node]: only a Proxy has one. *)
Definition node_of (v : PyVal) : result Proxy :=
  match v with
  | VProxy p => Ok p
  | _ => Raise AttributeError
  end.

(** *** The intervention graph *)

Record Node := mkNode {
  target : string;
  node_args : list PyVal;
  node_value : PyVal;       (* the placeholder value *)
}.

Abbreviation Graph := (list Node).

(** Modelled from the spec: [Graph.add] of [tracing/Graph.py], which is not
    among the sources.  It appends a node and returns a Proxy wrapping it;
    here it returns the position of the new node. *)
Definition Graph_add (g : Graph) (value : PyVal) (tgt : string)
    (arguments : list PyVal) : Graph * nat :=
  (g ++ [mkNode tgt arguments value], length g).

Record Tracer := mkTracer {
  graph : nat;            (* reference to the session's Graph *)
  batch_size : Z;
  batch_start : Z;
}.

(** *** Classes *)

(** The two properties defined by [Module]. *)
Inductive PropKind := POutput | PInput.

Inductive ClassAttr :=
| Property (k : PropKind)       (* a data descriptor: getter and setter *)
| Plain (v : PyVal).            (* any other class attribute *)

(** A class object.  [cmro] is [__mro__], computed once when the class is
    created.  [torch.nn.Module] and [object], the common tail of every
    linearisation, define none of the names looked up here and are left out. *)
Record PyClass := mkClass {
  cname : string;
  cbases : list nat;
  cdict : gmap string ClassAttr;
  cmro : list nat;
}.

(** *** Module objects *)

Inductive Hook :=
| NnsightHook                   (* the closure [hook] made by [Module.wrap] *)
| HostHook (tag : nat).         (* any other forward hook *)

Record Obj := mkObj {
  cls : nat;                                 (* [__class__] *)
  inst_dict : gmap string PyVal;             (* the host's own instance attributes *)
  _parameters : gmap string PyVal;           (* registered parameters and buffers *)
  _modules : list (string * nat);            (* registered submodules *)
  _forward_hooks : list Hook;
  (* the attributes set by [Module.__init__] *)
  module_path : string;
  call_iter : Z;
  fake_outputs : list PyVal;
  fake_inputs : list PyVal;
  _output : option Proxy;
  _input : option Proxy;
  tracer : option nat;
}.

Record World := mkWorld {
  objs : gmap nat Obj;
  classes : gmap nat PyClass;
  tracers : gmap nat Tracer;
  graphs : gmap nat Graph;
  warnings : list string;
}.

(** Field updates. *)
Definition set_cls (c : nat) (o : Obj) : Obj :=
  mkObj c (inst_dict o) (_parameters o) (_modules o) (_forward_hooks o)
        (module_path o) (call_iter o) (fake_outputs o) (fake_inputs o)
        (_output o) (_input o) (tracer o).
Definition set_forward_hooks (hs : list Hook) (o : Obj) : Obj :=
  mkObj (cls o) (inst_dict o) (_parameters o) (_modules o) hs
        (module_path o) (call_iter o) (fake_outputs o) (fake_inputs o)
        (_output o) (_input o) (tracer o).
Definition set_call_iter (n : Z) (o : Obj) : Obj :=
  mkObj (cls o) (inst_dict o) (_parameters o) (_modules o) (_forward_hooks o)
        (module_path o) n (fake_outputs o) (fake_inputs o)
        (_output o) (_input o) (tracer o).
Definition set_fake_outputs (l : list PyVal) (o : Obj) : Obj :=
  mkObj (cls o) (inst_dict o) (_parameters o) (_modules o) (_forward_hooks o)
        (module_path o) (call_iter o) l (fake_inputs o)
        (_output o) (_input o) (tracer o).
Definition set_fake_inputs (l : list PyVal) (o : Obj) : Obj :=
  mkObj (cls o) (inst_dict o) (_parameters o) (_modules o) (_forward_hooks o)
        (module_path o) (call_iter o) (fake_outputs o) l
        (_output o) (_input o) (tracer o).
Definition set_output (p : option Proxy) (o : Obj) : Obj :=
  mkObj (cls o) (inst_dict o) (_parameters o) (_modules o) (_forward_hooks o)
        (module_path o) (call_iter o) (fake_outputs o) (fake_inputs o)
        p (_input o) (tracer o).
Definition set_input (p : option Proxy) (o : Obj) : Obj :=
  mkObj (cls o) (inst_dict o) (_parameters o) (_modules o) (_forward_hooks o)
        (module_path o) (call_iter o) (fake_outputs o) (fake_inputs o)
        (_output o) p (tracer o).
Definition set_module_path (path : string) (o : Obj) : Obj :=
  mkObj (cls o) (inst_dict o) (_parameters o) (_modules o) (_forward_hooks o)
        path (call_iter o) (fake_outputs o) (fake_inputs o)
        (_output o) (_input o) (tracer o).
Definition set_tracer (t : option nat) (o : Obj) : Obj :=
  mkObj (cls o) (inst_dict o) (_parameters o) (_modules o) (_forward_hooks o)
        (module_path o) (call_iter o) (fake_outputs o) (fake_inputs o)
        (_output o) (_input o) t.

Definition set_objs (m : gmap nat Obj) (w : World) : World :=
  mkWorld m (classes w) (tracers w) (graphs w) (warnings w).
Definition set_classes (m : gmap nat PyClass) (w : World) : World :=
  mkWorld (objs w) m (tracers w) (graphs w) (warnings w).
Definition set_graphs (m : gmap nat Graph) (w : World) : World :=
  mkWorld (objs w) (classes w) (tracers w) m (warnings w).
Definition set_warnings (l : list string) (w : World) : World :=
  mkWorld (objs w) (classes w) (tracers w) (graphs w) l.

(** An in-place update of the object behind reference [i]. *)
Definition upd (i : nat) (f : Obj -> Obj) (w : World) : World :=
  set_objs (alter f i (objs w)) w.

Definition lookup_obj (w : World) (i : nat) : result Obj :=
  orelse (objs w !! i) BadRef.

(** The node a Proxy stands for. *)
Definition node_at (w : World) (p : Proxy) : option Node :=
  g ← graphs w !! p_graph p; g !! p_node p.

(** *** Classes: creation and attribute lookup *)

(** The reference of the shared class [Module]. *)
Definition Module_id : nat := 0%nat.

(** [class Module(torch.nn.Module)]: the two properties [output] and [input].
    Its methods are the functions defined below and are called directly. *)
Definition Module_class : PyClass :=
  mkClass "Module" []
          (<["output" := Property POutput]> (<["input" := Property PInput]> ∅))
          [Module_id].

Definition mro_of (ct : gmap nat PyClass) (c : nat) : list nat :=
  match ct !! c with
  | Some k => cmro k
  | None => [c]
  end.

(** The linearisation of the bases, in order, each class once. *)
Definition merge_mro (ct : gmap nat PyClass) (bases : list nat) : list nat :=
  foldl (λ acc b, acc ++ filter (λ x, x ∉ acc) (mro_of ct b)) [] bases.

(** [type(name, bases, dict)]: a new class object. *)
Definition type_new (ct : gmap nat PyClass) (name : string) (bases : list nat)
    (dict : gmap string ClassAttr) : gmap nat PyClass * nat :=
  let c := fresh (dom ct) in
  (<[c := mkClass name bases dict (c :: merge_mro ct bases)]> ct, c).

(** The first class of the linearisation whose dict has [name]. *)
Fixpoint find_attr (ct : gmap nat PyClass) (mro : list nat) (name : string)
    : option ClassAttr :=
  match mro with
  | [] => None
  | c :: rest =>
      match ct !! c ≫= (λ k, cdict k !! name) with
      | Some a => Some a
      | None => find_attr ct rest name
      end
  end.

(** [getattr(cls, name)] on a class object. *)
Definition class_getattr (ct : gmap nat PyClass) (c : nat) (name : string)
    : option ClassAttr :=
  find_attr ct (mro_of ct c) name.

(** [setattr(cls, name, a)] on a class object. *)
Definition class_setattr (c : nat) (name : string) (a : ClassAttr)
    (ct : gmap nat PyClass) : gmap nat PyClass :=
  alter (λ k, mkClass (cname k) (cbases k) (<[name := a]> (cdict k)) (cmro k)) c ct.

(** [isinstance(module, Module)] *)
Definition isinstance_Module (w : World) (i : nat) : bool :=
  match objs w !! i with
  | Some o => bool_decide (Module_id ∈ mro_of (classes w) (cls o))
  | None => false
  end.

(** *** [Module.__init__] (lines 55-69) *)

Definition Module__init__ (o : Obj) : Obj :=
  mkObj (cls o) (inst_dict o) (_parameters o) (_modules o) (_forward_hooks o)
        "" 0 [] [] None None None.

(** *** The [output] and [input] properties (lines 145-237)

    The two getters, and the two setters, differ only in the fields and the
    name they use; [PropKind] selects them. *)

Definition cached (k : PropKind) (o : Obj) : option Proxy :=
  match k with
  | POutput => _output o
  | PInput => _input o
  end.

Definition set_cached (k : PropKind) (p : option Proxy) (o : Obj) : Obj :=
  match k with
  | POutput => set_output p o
  | PInput => set_input p o
  end.

Definition fakes (k : PropKind) (o : Obj) : list PyVal :=
  match k with
  | POutput => fake_outputs o
  | PInput => fake_inputs o
  end.

Definition attr_name (k : PropKind) : string :=
  match k with
  | POutput => "output"
  | PInput => "input"
  end.

Definition suffix (k : PropKind) : string :=
  match k with
  | POutput => ".output"
  | PInput => ".input"
  end.

(** [l[i]] on a Python list: a negative index counts from the end. *)
Definition py_index {A} (l : list A) (i : Z) : result A :=
  let n := Z.of_nat (length l) in
  if 0 <=? i then orelse (l !! Z.to_nat i) IndexError
  else if 0 <=? n + i then orelse (l !! Z.to_nat (n + i)) IndexError
  else Raise IndexError.

(** The choice of the placeholder value (lines 156-162 and 203-209). *)
Definition select_fake (l : list PyVal) (iter : Z) : result PyVal :=
  if decide (length l = 0%nat) then Ok VNone
  else if Z.of_nat (length l) <=? iter then py_index l (-1)
  else py_index l iter.

(** The getter. *)
Definition prop_get (k : PropKind) (w : World) (self : nat) : result (World * Proxy) :=
  o ← lookup_obj w self;
  match cached k o with
  | Some p => Ok (w, p)
  | None =>
      fake ← select_fake (fakes k o) (call_iter o);
      (* self.tracer.graph.add(value=..., target="argument", args=[...]) *)
      tid ← orelse (tracer o) AttributeError;
      t ← orelse (tracers w !! tid) BadRef;
      g ← orelse (graphs w !! graph t) BadRef;
      let '(g', n) :=
        Graph_add g fake "argument"
                  [VStr (module_path o +:+ suffix k);
                   VInt (batch_size t); VInt (batch_start t); VInt (call_iter o)] in
      let p := mkProxy (graph t) n in
      Ok (upd self (set_cached k (Some p)) (set_graphs (<[graph t := g']> (graphs w)) w), p)
  end.

Definition output_get : World -> nat -> result (World * Proxy) := prop_get POutput.
Definition input_get : World -> nat -> result (World * Proxy) := prop_get PInput.

(** [torch.nn.Module.__getattr__]: the fallback of attribute lookup. *)
Definition torch__getattr__ (o : Obj) (name : string) : result PyVal :=
  match _parameters o !! name with
  | Some v => Ok v
  | None =>
      match list_find (λ e, fst e = name) (_modules o) with
      | Some (_, (_, j)) => Ok (VRef j)
      | None => Raise AttributeError
      end
  end.

(** [module.name]: a property of the class comes first, then the instance
    dict, then any other class attribute, then [__getattr__]; a property whose
    getter raises [AttributeError] falls back to [__getattr__] as well. *)
Definition getattr (w : World) (self : nat) (name : string) : result (World * PyVal) :=
  o ← lookup_obj w self;
  match class_getattr (classes w) (cls o) name with
  | Some (Property k) =>
      match prop_get k w self with
      | Ok (w', p) => Ok (w', VProxy p)
      | Raise AttributeError => v ← torch__getattr__ o name; Ok (w, v)
      | Raise e => Raise e
      end
  | Some (Plain v) =>
      match inst_dict o !! name with
      | Some v' => Ok (w, v')
      | None => Ok (w, v)
      end
  | None =>
      match inst_dict o !! name with
      | Some v' => Ok (w, v')
      | None => v ← torch__getattr__ o name; Ok (w, v)
      end
  end.

(** [getattr(module, name, None)] *)
Definition getattr_default (w : World) (self : nat) (name : string)
    : result (World * PyVal) :=
  match getattr w self name with
  | Raise AttributeError => Ok (w, VNone)
  | r => r
  end.

(** The setter.  [self.output] in its body is an attribute lookup on [self]. *)
Definition prop_set (k : PropKind) (w : World) (self : nat) (value : PyVal)
    : result World :=
  (* self.output.node.graph *)
  '(w, v1) ← getattr w self (attr_name k);
  p1 ← node_of v1;
  (* args=[self.output.node, value] *)
  '(w, v2) ← getattr w self (attr_name k);
  p2 ← node_of v2;
  g ← orelse (graphs w !! p_graph p1) BadRef;
  let '(g', _) :=
    Graph_add g (VBool true) "swap" [VNode (p_graph p2) (p_node p2); value] in
  let w := set_graphs (<[p_graph p1 := g']> (graphs w)) w in
  (* self._output = None *)
  Ok (upd self (set_cached k None) w).

Definition output_set : World -> nat -> PyVal -> result World := prop_set POutput.
Definition input_set : World -> nat -> PyVal -> result World := prop_set PInput.

(** *** [self.modules()]

    The module itself and every module reachable through registered
    submodules, each once.  torch yields them in depth-first order; the loops
    below treat every module alike, and the order is not modelled. *)

Definition kids (w : World) (i : nat) : list nat :=
  match objs w !! i with
  | Some o => filter (λ j, j ∈ dom (objs w)) (map snd (_modules o))
  | None => []
  end.

Definition expand (w : World) (X : gset nat) : gset nat :=
  X ∪ set_bind (λ i, list_to_set (kids w i)) X.

Fixpoint reach (fuel : nat) (w : World) (X : gset nat) : gset nat :=
  match fuel with
  | O => X
  | S n => reach n w (expand w X)
  end.

Definition modules (w : World) (self : nat) : list nat :=
  elements (reach (size (objs w)) w {[self]}).

(** The specification of the traversal: [j] is [i] or is reachable from it through registered submodules. *)
Inductive descendant (w : World) (i : nat) : nat -> Prop :=
| desc_self : descendant w i i
| desc_child (j c : nat) : descendant w i j -> c ∈ kids w j -> descendant w i c.

(** [for module in self.modules(): if isinstance(module, Module): f(module)] *)
Definition for_modules (f : nat -> World -> World) (w : World) (self : nat) : World :=
  foldl (λ w j, if isinstance_Module w j then f j w else w) w (modules w self).

(** *** [reset_proxies], [reset], [clear], [next] (lines 71-115) *)

Definition reset_proxies (w : World) (self : nat) (propagate : bool) : World :=
  let w := upd self (set_output None) w in
  let w := upd self (set_input None) w in
  if propagate
  then for_modules (λ j w, upd j (set_input None) (upd j (set_output None) w)) w self
  else w.

(** What the three operations do to the fields of one module. *)
Definition clear_proxies (o : Obj) : Obj := set_input None (set_output None o).
Definition reset_fields (o : Obj) : Obj := set_call_iter 0 (clear_proxies o).
Definition clear_fields (o : Obj) : Obj :=
  set_fake_inputs [] (set_fake_outputs [] (reset_fields o)).

Definition reset (w : World) (self : nat) (propagate : bool) : World :=
  let reset_np (j : nat) (w : World) : World :=
    upd j (set_call_iter 0) (reset_proxies w j false) in
  let w := reset_np self w in
  if propagate then for_modules reset_np w self else w.

Definition clear (w : World) (self : nat) (propagate : bool) : World :=
  let clear_np (j : nat) (w : World) : World :=
    upd j (set_fake_inputs []) (upd j (set_fake_outputs []) (reset w j false)) in
  let w := clear_np self w in
  if propagate then for_modules clear_np w self else w.

Definition next (w : World) (self : nat) (iteration : Z) (propagate : bool) : World :=
  let next_np (iteration : Z) (j : nat) (w : World) : World :=
    reset_proxies (upd j (λ o, set_call_iter (call_iter o + iteration) o) w) j false in
  let w := next_np iteration self w in
  if propagate then for_modules (next_np 1) w self else w.

(** *** [Module.wrap] (lines 250-308) *)

Section Hook.
(** [torch._guards.detect_fake_mode]: whether the host runs in shape-only mode. *)
Variable detect_fake_mode : PyVal -> bool.

(** The closure [hook] (lines 261-270). *)
Definition hook (w : World) (module : nat) (input input_kwargs output : PyVal) : World :=
  if detect_fake_mode input then
    let w := reset_proxies w module true in
    let input := VPair input input_kwargs in
    let w := upd module (λ o, set_fake_outputs (fake_outputs o ++ [output]) o) w in
    upd module (λ o, set_fake_inputs (fake_inputs o ++ [input]) o) w
  else w.

(** What torch does once [forward] has returned: every registered forward
    hook is called in turn.  Hooks of the host are not modelled further. *)
Definition run_hook (module : nat) (input input_kwargs output : PyVal)
    (w : World) (h : Hook) : World :=
  match h with
  | NnsightHook => hook w module input input_kwargs output
  | HostHook _ => w
  end.

Definition fire_forward_hooks (w : World) (module : nat)
    (input input_kwargs output : PyVal) : World :=
  match objs w !! module with
  | Some o => foldl (run_hook module input input_kwargs output) w (_forward_hooks o)
  | None => w
  end.
End Hook.

(** [module.register_forward_hook(hook, with_kwargs=True)] *)
Definition register_forward_hook (h : Hook) (w : World) (module : nat) : World :=
  upd module (λ o, set_forward_hooks (_forward_hooks o ++ [h]) o) w.

(** Modelled from the spec: [util.wrap(module, Module)] of [util.py], which is
    not among the sources.  Wrapping happens once per module instance: an
    object that already is a [Module] is left alone; otherwise its class
    becomes a new class with the bases [(Module, original class)] (the second
    base is what line 300 reads back) and [Module.__init__] runs on it. *)
Definition util_wrap (w : World) (module : nat) : result World :=
  o ← lookup_obj w module;
  if isinstance_Module w module then Ok w
  else
    let k := classes w !! cls o in
    let '(ct, c) :=
      type_new (classes w) (from_option cname "" k) [Module_id; cls o] ∅ in
    Ok (upd module (λ o, Module__init__ (set_cls c o)) (set_classes ct w)).

Definition collision_warning (original_cls : string) : string :=
  "Module of type `" +:+ original_cls +:+
  "` has pre-defined either an `output` attribute or an `input` attribute. nnsight input and output access will be mounted at `.nns_output` and `.nns_input instead of `.output` and `.input` respectively for this module only.".

(** Lines 279-305: the branch taken when an original attribute was found. *)
Definition preserve_originals (w : World) (module : nat) (original_cls : string)
    (original_output original_input : PyVal) : result World :=
  let w := set_warnings (warnings w ++ [collision_warning original_cls]) w in
  (* new_module_cls = type("Module.Preserved", (Module,), {}) *)
  let '(ct, new_module_cls) := type_new (classes w) "Module.Preserved" [Module_id] ∅ in
  nns_output ← orelse (class_getattr ct new_module_cls "output") AttributeError;
  nns_input ← orelse (class_getattr ct new_module_cls "input") AttributeError;
  let ct := class_setattr new_module_cls "nns_output" nns_output ct in
  let ct := class_setattr new_module_cls "output" (Plain original_output) ct in
  let ct := class_setattr new_module_cls "nns_input" nns_input ct in
  let ct := class_setattr new_module_cls "input" (Plain original_input) ct in
  (* new_cls = type(name + ".Preserved",
                    (new_module_cls, module.__class__.__bases__[1]), {}) *)
  o ← lookup_obj w module;
  k ← orelse (ct !! cls o) BadRef;
  base1 ← orelse (cbases k !! 1%nat) IndexError;
  let '(ct, new_cls) :=
    type_new ct (cname k +:+ ".Preserved") [new_module_cls; base1] ∅ in
  (* module.__class__ = new_cls *)
  Ok (upd module (set_cls new_cls) (set_classes ct w)).

Definition wrap (w : World) (module : nat) : result World :=
  '(w, original_output) ← getattr_default w module "output";
  '(w, original_input) ← getattr_default w module "input";
  o ← lookup_obj w module;
  let original_cls := from_option cname "" (classes w !! cls o) in
  w ← util_wrap w module;
  w ← (if negb (is_none original_output) || negb (is_none original_input)
       then preserve_originals w module original_cls original_output original_input
       else Ok w);
  Ok (register_forward_hook NnsightHook w module).

(** *** Vocabulary of the statements *)

(** [hasattr(module, name)]: the lookup succeeds. *)
Definition hasattr (w : World) (module : nat) (name : string) : Prop :=
  ∃ w' v, getattr w module name = Ok (w', v).

(** Whether the class of [o] binds [name] to one of the two properties. *)
Definition has_property (w : World) (o : Obj) (name : string) : bool :=
  match class_getattr (classes w) (cls o) name with
  | Some (Property _) => true
  | _ => false
  end.

(** The dict of the class [Module.Preserved] once lines 290-294 have run. *)
Definition preserved_dict (original_output original_input : PyVal)
    : gmap string ClassAttr :=
  <["input" := Plain original_input]>
    (<["nns_input" := Property PInput]>
       (<["output" := Plain original_output]>
          (<["nns_output" := Property POutput]> ∅))).

(** The graphs of [w'] extend those of [w]: nodes are only ever appended. *)
Definition extends (w w' : World) : Prop :=
  ∀ gid g, graphs w !! gid = Some g -> ∃ ext, graphs w' !! gid = Some (g ++ ext).

(** Every cached Proxy stands for a node that exists. *)
Definition proxies_valid (w : World) : Prop :=
  ∀ j o k p, objs w !! j = Some o -> cached k o = Some p -> is_Some (node_at w p).

(** The two placeholder lists of every module have the same length. *)
Definition lists_aligned (w : World) : Prop :=
  ∀ j o, objs w !! j = Some o -> length (fake_inputs o) = length (fake_outputs o).

(** What the hook records for the property [k]. *)
Definition recorded (k : PropKind) (input input_kwargs output : PyVal) : PyVal :=
  match k with
  | POutput => output
  | PInput => VPair input input_kwargs
  end.

(** The shape that [reset_proxies], [reset] and [clear] share: update [self]
    in place by [g], then, when propagating, every wrapped module of
    [self.modules()]. *)
Definition in_place (g : Obj -> Obj) (w : World) (self : nat) (propagate : bool) : World :=
  let w := upd self g w in
  if propagate then for_modules (λ j w, upd j g w) w self else w.

(** What [next(propagate=False)] does to the fields of one module. *)
Definition next_fields (iteration : Z) (o : Obj) : Obj :=
  clear_proxies (set_call_iter (call_iter o + iteration) o).

(** One operation of a module on the store: the four operations on the
    counters and caches, the hook, a successful read or assignment of a
    property, a successful [wrap]. *)
Inductive op_step (detect_fake_mode : PyVal -> bool) : World -> World -> Prop :=
| step_reset_proxies w self p :
    op_step detect_fake_mode w (reset_proxies w self p)
| step_reset w self p :
    op_step detect_fake_mode w (reset w self p)
| step_clear w self p :
    op_step detect_fake_mode w (clear w self p)
| step_next w self iteration p :
    op_step detect_fake_mode w (next w self iteration p)
| step_hook w module input input_kwargs output :
    op_step detect_fake_mode w (hook detect_fake_mode w module input input_kwargs output)
| step_read k w self w' p :
    prop_get k w self = Ok (w', p) -> op_step detect_fake_mode w w'
| step_assign k w self value w' :
    prop_set k w self value = Ok w' -> op_step detect_fake_mode w w'
| step_wrap w module w' :
    wrap w module = Ok w' -> op_step detect_fake_mode w w'.

(** How one object may change in a step, as far as the placeholder lists and
    the cached Proxies go: aligned lists stay aligned, and a cached Proxy was
    cached before or stands for a node of the new world. *)
Definition changes_to (w' : World) (o o' : Obj) : Prop :=
  (length (fake_inputs o) = length (fake_outputs o) ->
   length (fake_inputs o') = length (fake_outputs o'))
  ∧ ∀ k p, cached k o' = Some p -> cached k o = Some p ∨ is_Some (node_at w' p).

(** [w'] comes from [w] by appending nodes and changing objects in place. *)
Definition evolves (w w' : World) : Prop :=
  extends w w'
  ∧ ∀ j o', objs w' !! j = Some o' -> ∃ o, objs w !! j = Some o ∧ changes_to w' o o'.

(** An object changed by [g] where [g] caches nothing new and keeps the lists
    aligned. *)
Definition quiet (g : Obj -> Obj) : Prop :=
  ∀ o, (length (fake_inputs o) = length (fake_outputs o) ->
        length (fake_inputs (g o)) = length (fake_outputs (g o)))
       ∧ ∀ k p, cached k (g o) = Some p -> cached k o = Some p.

(** [w'] differs from [w] at most in object [i], whose own attributes,
    parameters and submodules are kept, and in classes that did not exist. *)
Definition touches_only (i : nat) (w w' : World) : Prop :=
  (∀ j, j ≠ i -> objs w' !! j = objs w !! j)
  ∧ (∀ o', objs w' !! i = Some o' ->
       ∃ o, objs w !! i = Some o
         ∧ inst_dict o' = inst_dict o
         ∧ _parameters o' = _parameters o
         ∧ _modules o' = _modules o)
  ∧ (∀ c kc, classes w !! c = Some kc -> classes w' !! c = Some kc)
  ∧ tracers w' = tracers w.

(** How many of the registered hooks are the one made by [wrap]. *)
Fixpoint nnsight_hooks (hs : list Hook) : nat :=
  match hs with
  | [] => O
  | NnsightHook :: hs => S (nnsight_hooks hs)
  | HostHook _ :: hs => nnsight_hooks hs
  end.

End Nnsight.

(** ** A small host model, used to run the definitions *)

Module Demo.
Import Nnsight.

Definition host_obj (c : nat) (d : gmap string PyVal) (subs : list (string * nat)) : Obj :=
  mkObj c d ∅ subs [] "" 0 [] [] None None None.

(** Classes 1 to 3 are the host's; objects 10 to 14 are its modules:
    a root with the submodules [h] and [layer]; [layer] has a submodule that
    is named [output]; object 14 keeps a result in an attribute [output] that
    is [None] until its first call. *)
Definition host_world : World :=
  mkWorld
    (<[10%nat := host_obj 1 ∅ [("h", 11%nat); ("layer", 12%nat)]]>
     (<[11%nat := host_obj 1 ∅ []]>
      (<[12%nat := host_obj 2 ∅ [("output", 13%nat)]]>
       (<[13%nat := host_obj 1 ∅ []]>
        (<[14%nat := host_obj 3 (<["output" := VNone]> ∅) []]> ∅)))))
    (<[Module_id := Module_class]>
     (<[1%nat := mkClass "Block" [] ∅ [1%nat]]>
      (<[2%nat := mkClass "Layer" [] ∅ [2%nat]]>
       (<[3%nat := mkClass "Cache" [] ∅ [3%nat]]> ∅))))
    (<[0%nat := mkTracer 0 1 0]> ∅)
    (<[0%nat := []]> ∅)
    [].

Definition wrap_all (w : World) (l : list nat) : result World :=
  foldl (λ r i, w ← r; wrap w i) (Ok w) l.

Definition or_else (r : result World) (w : World) : World :=
  match r with
  | Ok w' => w'
  | Raise _ => w
  end.

(** Every module wrapped once. *)
Definition wrapped_world : World :=
  or_else (wrap_all host_world [10; 11; 12; 13]%nat) host_world.

(** ... then given its dotted path and attached to a session. *)
Definition traced_world : World :=
  foldl (λ w '(i, path), upd i (set_tracer (Some 0%nat) ∘ set_module_path path) w)
        wrapped_world
        [(10, ""); (11, "h"); (12, "layer"); (13, "layer.output")]%nat.

Definition the_obj (w : World) (i : nat) : Obj :=
  default (host_obj 0 ∅ []) (objs w !! i).

(** Module [h] after a scan that saw it called twice. *)
Definition scanned_world : World :=
  upd 11 (set_fake_outputs [VHost 1; VHost 2] ∘ set_fake_inputs [VHost 3; VHost 4])
      traced_world.

(** Module [h] alone, wrapped once and wrapped twice. *)
Definition wrapped_once : World := or_else (wrap host_world 11) host_world.
Definition wrapped_twice : World := or_else (wrap wrapped_once 11) wrapped_once.

(** Object 14 alone, wrapped. *)
Definition wrapped_cache : World := or_else (wrap host_world 14) host_world.

(** Module [h] after one read of [.output]. *)
Definition read_world : World :=
  match output_get traced_world 11 with
  | Ok (w, _) => w
  | Raise _ => traced_world
  end.

(** Shape-only mode is recognised by the host value with tag 0. *)
Definition fake_tag0 (v : PyVal) : bool :=
  match v with
  | VHost 0 => true
  | _ => false
  end.

End Demo.

(* ===================================================================== *)
(** * Part II: properties                                                 *)
(* ===================================================================== *)

(** ** The Invoker and its session *)

Module EngineFacts.
Import Engine.

Section WithHost.
Context `{HostModel}.

Lemma run_app (g : Generator) (ops1 ops2 : list Op) :
  run g (ops1 ++ ops2) = run (run g ops1) ops2.
Proof. apply foldl_app. Qed.

Lemma enter_fields (g : Generator) (inv : Invoker) :
  let g' := fst (__enter__ g inv) in
  generation_idx g' = 0
  ∧ batch_size g' = Z.of_nat (examples inv)
  ∧ prompts g' = prompts g
       ++ map join (map (map decode) (input_ids (prepare_inputs (input inv)))).
Proof. unfold __enter__, examples. simpl. done. Qed.

Lemma next_fields (g : Generator) (inv : Invoker) :
  generation_idx (next g inv) = generation_idx g + 1
  ∧ batch_size (next g inv) = batch_size g
  ∧ prompts (next g inv) = prompts g.
Proof. done. Qed.

Lemma enter_all_prompts (invs : list Invoker) (g : Generator) :
  length (prompts (enter_all g invs))
  = (length (prompts g) + total_examples invs)%nat.
Proof.
  unfold enter_all, total_examples, run.
  revert g. induction invs as [|inv invs IH]; intros g; simpl.
  - lia.
  - rewrite IH. simpl. rewrite length_app, !length_map.
    unfold examples. lia.
Qed.

Lemma run_nexts (invs : list Invoker) (g : Generator) :
  generation_idx (run g (map Next invs)) = generation_idx g + Z.of_nat (length invs).
Proof.
  unfold run. revert g. induction invs as [|inv invs IH]; intros g; simpl.
  - lia.
  - rewrite IH. simpl. lia.
Qed.

(** C1 (as amended).  After the scopes of one or more Invokers have been
    entered, the session's batch size is the example count of the Invoker
    entered last, whatever was entered before it; what accumulates over the
    Invokers is the prompt list, which grows by the sum of all the example
    counts. *)
Theorem batch_size_is_last_invoker (g : Generator) (pre : list Invoker) (inv : Invoker) :
  batch_size (enter_all g (pre ++ [inv])) = Z.of_nat (examples inv)
  ∧ length (prompts (enter_all g (pre ++ [inv])))
    = (length (prompts g) + total_examples (pre ++ [inv]))%nat.
Proof.
  split; [|apply enter_all_prompts].
  unfold enter_all. rewrite map_app, run_app. simpl.
  by destruct (enter_fields (run g (map Enter pre)) inv) as (_ & Hb & _).
Qed.

(** C3 (as amended).  Every scope entry sets the generation-step index to
    zero and every [next()] raises it by exactly one: after any history, an
    entry followed by [n] calls of [next()] leaves the index at [n].  The index
    is thus non-decreasing between two scope entries only. *)
Theorem generation_idx_counts_nexts_since_entry
    (g : Generator) (history : list Op) (inv : Invoker) (nexts : list Invoker) :
  generation_idx (run g (history ++ Enter inv :: map Next nexts))
    = Z.of_nat (length nexts)
  ∧ generation_idx (step g (Enter inv)) = 0
  ∧ generation_idx (step g (Next inv)) = generation_idx g + 1.
Proof.
  split; [|done].
  rewrite run_app. change (run ?g0 (Enter inv :: ?l)) with (run (step g0 (Enter inv)) l).
  rewrite run_nexts. simpl. lia.
Qed.

End WithHost.

(** C1, refuted as stated: with the invocations "A" and "BB" of one example
    each, the batch size after both entries is 1, not the sum 2. *)
Lemma batch_size_is_not_the_sum :
  total_examples [toy_A; toy_BB] = 2%nat
  ∧ batch_size (enter_all toy_session [toy_A; toy_BB]) = 1
  ∧ batch_size (enter_all toy_session [toy_A; toy_BB])
    ≠ Z.of_nat (total_examples [toy_A; toy_BB]).
Proof. by vm_compute. Qed.

(** C3, refuted as stated: entering a second scope after [next()] takes the
    index from 1 back to 0. *)
Lemma second_entry_decreases_generation_idx :
  generation_idx (run toy_session [Enter toy_A; Next toy_A]) = 1
  ∧ generation_idx (run toy_session [Enter toy_A; Next toy_A; Enter toy_BB]) = 0
  ∧ ¬ (generation_idx (run toy_session [Enter toy_A; Next toy_A])
       ≤ generation_idx (run toy_session [Enter toy_A; Next toy_A; Enter toy_BB])).
Proof. by vm_compute. Qed.

End EngineFacts.

(** ** The instrumented module *)

Module NnsightFacts.
Import Nnsight.

(** *** The store *)

Lemma lookup_upd_eq (w : World) (i : nat) (f : Obj -> Obj) :
  objs (upd i f w) !! i = f <$> objs w !! i.
Proof. apply lookup_alter_eq. Qed.

Lemma lookup_upd_ne (w : World) (i j : nat) (f : Obj -> Obj) :
  i ≠ j -> objs (upd i f w) !! j = objs w !! j.
Proof. intros. by apply lookup_alter_ne. Qed.

Lemma upd_upd (w : World) (i : nat) (f g : Obj -> Obj) :
  upd i f (upd i g w) = upd i (f ∘ g) w.
Proof. unfold upd, set_objs. simpl. by rewrite alter_alter_eq. Qed.

Lemma graphs_upd (w : World) (i : nat) (f : Obj -> Obj) :
  graphs (upd i f w) = graphs w.
Proof. done. Qed.

Lemma graphs_set_graphs (w : World) (m : gmap nat Graph) :
  graphs (set_graphs m w) = m.
Proof. done. Qed.

Lemma node_at_appended (w : World) (gid : nat) (g : Graph) (n : Node) :
  graphs w !! gid = Some (g ++ [n]) -> node_at w (mkProxy gid (length g)) = Some n.
Proof.
  intros Hg. unfold node_at. simpl. rewrite Hg. simpl.
  by apply list_lookup_middle.
Qed.

Lemma node_at_beyond (w : World) (gid n : nat) (g : Graph) :
  graphs w !! gid = Some g -> (length g ≤ n)%nat -> node_at w (mkProxy gid n) = None.
Proof.
  intros Hg Hn. unfold node_at. simpl. rewrite Hg. simpl. by apply lookup_ge_None.
Qed.

(** *** Choosing the placeholder *)

Lemma select_fake_empty (iter : Z) : select_fake [] iter = Ok VNone.
Proof. done. Qed.

Lemma select_fake_beyond (l : list PyVal) (iter : Z) (x : PyVal) :
  last l = Some x -> Z.of_nat (length l) ≤ iter -> select_fake l iter = Ok x.
Proof.
  intros Hlast Hle. unfold select_fake.
  destruct (decide (length l = 0%nat)) as [H0|H0].
  { destruct l; [done|discriminate]. }
  rewrite (proj2 (Z.leb_le _ _) Hle).
  unfold py_index. simpl (0 <=? -1).
  assert ((0 <=? Z.of_nat (length l) + -1) = true) as -> by (apply Z.leb_le; lia).
  replace (Z.to_nat (Z.of_nat (length l) + -1)) with (pred (length l)) by lia.
  by rewrite <- last_lookup, Hlast.
Qed.

Lemma select_fake_within (l : list PyVal) (iter : Z) :
  0 ≤ iter -> iter < Z.of_nat (length l) ->
  ∃ x, l !! Z.to_nat iter = Some x ∧ select_fake l iter = Ok x.
Proof.
  intros H0 Hlt. unfold select_fake.
  destruct (decide (length l = 0%nat)) as [Hl|Hl]; [lia|].
  assert ((Z.of_nat (length l) <=? iter) = false) as -> by (apply Z.leb_gt; lia).
  unfold py_index. rewrite (proj2 (Z.leb_le _ _) H0).
  destruct (lookup_lt_is_Some_2 l (Z.to_nat iter)) as [x Hx]; [lia|].
  exists x. by rewrite Hx.
Qed.

(** With a counter that is not negative the choice never fails. *)
Lemma select_fake_total (l : list PyVal) (iter : Z) :
  0 ≤ iter -> ∃ x, select_fake l iter = Ok x.
Proof.
  intros H0. destruct l as [|y l'] eqn:El.
  { eexists. apply select_fake_empty. }
  rewrite <- El. destruct (Z_lt_le_dec iter (Z.of_nat (length l))) as [Hlt|Hle].
  - destruct (select_fake_within l iter) as (x & _ & Hx); eauto.
  - destruct (last l) as [x|] eqn:Hlast.
    + eauto using select_fake_beyond.
    + apply last_None in Hlast. congruence.
Qed.

(** *** The getter *)

Lemma prop_get_cached (k : PropKind) (w : World) (self : nat) (o : Obj) (p : Proxy) :
  objs w !! self = Some o -> cached k o = Some p -> prop_get k w self = Ok (w, p).
Proof. intros Ho Hc. unfold prop_get, lookup_obj. rewrite Ho. simpl. by rewrite Hc. Qed.

Lemma prop_get_fresh (k : PropKind) (w : World) (self : nat) (o : Obj)
    (tid : nat) (t : Tracer) (g : Graph) (fake : PyVal) :
  objs w !! self = Some o ->
  cached k o = None ->
  select_fake (fakes k o) (call_iter o) = Ok fake ->
  tracer o = Some tid ->
  tracers w !! tid = Some t ->
  graphs w !! graph t = Some g ->
  prop_get k w self
  = Ok (upd self (set_cached k (Some (mkProxy (graph t) (length g))))
          (set_graphs
             (<[graph t :=
                  g ++ [mkNode "argument"
                          [VStr (module_path o +:+ suffix k); VInt (batch_size t);
                           VInt (batch_start t); VInt (call_iter o)] fake]]>
                (graphs w)) w),
        mkProxy (graph t) (length g)).
Proof.
  intros Ho Hc Hf Ht Htr Hg. unfold prop_get, lookup_obj. rewrite Ho. simpl.
  rewrite Hc, Hf. simpl. rewrite Ht. simpl. rewrite Htr. simpl. by rewrite Hg.
Qed.

Lemma cached_set_cached (k : PropKind) (p : option Proxy) (o : Obj) :
  cached k (set_cached k p o) = p.
Proof. by destruct k. Qed.

(** *** [self.modules()] reaches every descendant *)

Lemma kids_in_dom (w : World) (i c : nat) : c ∈ kids w i -> c ∈ dom (objs w).
Proof.
  unfold kids. destruct (objs w !! i); [|by intros ?%elem_of_nil].
  by intros [? _]%list_elem_of_filter.
Qed.

Lemma elem_of_expand (w : World) (X : gset nat) (c : nat) :
  c ∈ expand w X ↔ c ∈ X ∨ ∃ j, j ∈ X ∧ c ∈ kids w j.
Proof.
  unfold expand. rewrite elem_of_union, elem_of_set_bind.
  by setoid_rewrite elem_of_list_to_set.
Qed.

Lemma expand_incl (w : World) (X : gset nat) : X ⊆ expand w X.
Proof. intros x Hx. apply elem_of_expand. by left. Qed.

Lemma expand_dom (w : World) (X : gset nat) :
  X ⊆ dom (objs w) -> expand w X ⊆ dom (objs w).
Proof.
  intros HX c [Hc|(j & _ & Hc)]%elem_of_expand; [by apply HX|].
  by eapply kids_in_dom.
Qed.

Lemma reach_incl (n : nat) (w : World) (X : gset nat) : X ⊆ reach n w X.
Proof.
  revert X. induction n as [|n IH]; intros X; simpl; [done|].
  etrans; [apply expand_incl|apply IH].
Qed.

Lemma reach_closed_id (n : nat) (w : World) (X : gset nat) :
  expand w X ⊆ X -> reach n w X = X.
Proof.
  intros Hc. assert (expand w X = X) as HX.
  { apply set_eq. intros x. split; [apply Hc|apply expand_incl]. }
  induction n as [|n IH]; simpl; [done|]. by rewrite HX.
Qed.

(** Enough fuel: once the fuel covers the objects not yet collected, the
    collected set is closed under [kids]. *)
Lemma reach_closed (n : nat) (w : World) (X : gset nat) :
  X ⊆ dom (objs w) ->
  (size (dom (objs w)) ≤ n + size X)%nat ->
  expand w (reach n w X) ⊆ reach n w X.
Proof.
  revert X. induction n as [|n IH]; intros X HX Hsz; simpl.
  - assert (X = dom (objs w)) as -> by (apply set_subseteq_size_eq; [done|lia]).
    by apply expand_dom.
  - destruct (decide (expand w X ⊆ X)) as [Hc|Hnc].
    + rewrite (reach_closed_id n w (expand w X)).
      * intros x Hx. apply expand_incl.
        apply elem_of_expand in Hx as [Hx|(j & Hj & Hx)].
        -- by apply Hc.
        -- apply Hc. apply elem_of_expand. right. exists j. split; [by apply Hc|done].
      * intros x Hx. apply expand_incl.
        apply elem_of_expand in Hx as [Hx|(j & Hj & Hx)].
        -- by apply Hc.
        -- apply Hc. apply elem_of_expand. right. exists j. split; [by apply Hc|done].
    + apply IH; [by apply expand_dom|].
      assert (size X < size (expand w X))%nat; [|lia].
      apply subset_size. split; [apply expand_incl|done].
Qed.

Lemma elem_of_modules (w : World) (self j : nat) :
  j ∈ modules w self ↔ j ∈ reach (size (objs w)) w {[self]}.
Proof. unfold modules. apply elem_of_elements. Qed.

(** Completeness of the traversal. *)
Lemma modules_complete (w : World) (self j : nat) :
  self ∈ dom (objs w) -> descendant w self j -> j ∈ modules w self.
Proof.
  intros Hself Hd. apply elem_of_modules. induction Hd as [|j c _ IH Hc].
  - apply reach_incl. set_solver.
  - apply (reach_closed (size (objs w)) w {[self]}).
    + set_solver.
    + rewrite size_dom. lia.
    + apply elem_of_expand. right. eauto.
Qed.

Lemma reach_sound (n : nat) (w : World) (X : gset nat) (self j : nat) :
  (∀ x, x ∈ X -> descendant w self x) -> j ∈ reach n w X -> descendant w self j.
Proof.
  revert X. induction n as [|n IH]; intros X HX; simpl; [by apply HX|].
  apply IH. intros x [Hx|(y & Hy & Hx)]%elem_of_expand; [by apply HX|].
  eapply desc_child; [by apply HX|done].
Qed.

(** Soundness of the traversal. *)
Lemma modules_sound (w : World) (self j : nat) :
  j ∈ modules w self -> descendant w self j.
Proof.
  intros Hj%elem_of_modules. eapply reach_sound; [|done].
  intros x ->%elem_of_singleton. constructor.
Qed.

(** *** Loops over [self.modules()] *)

Lemma isinstance_upd (w : World) (i j : nat) (g : Obj -> Obj) :
  (∀ o, cls (g o) = cls o) ->
  isinstance_Module (upd i g w) j = isinstance_Module w j.
Proof.
  intros Hcls. unfold isinstance_Module.
  destruct (decide (i = j)) as [->|Hne].
  - rewrite lookup_upd_eq. destruct (objs w !! j); simpl; [|done]. by rewrite Hcls.
  - by rewrite lookup_upd_ne.
Qed.

Lemma kids_upd (w : World) (i j : nat) (g : Obj -> Obj) :
  (∀ o, _modules (g o) = _modules o) -> kids (upd i g w) j = kids w j.
Proof.
  intros Hm. unfold kids. simpl. rewrite dom_alter_L.
  destruct (decide (i = j)) as [->|Hne].
  - rewrite lookup_alter_eq. destruct (objs w !! j); simpl; [|done]. by rewrite Hm.
  - by rewrite lookup_alter_ne.
Qed.

Lemma expand_ext (w1 w2 : World) (X : gset nat) :
  (∀ j, kids w1 j = kids w2 j) -> expand w1 X = expand w2 X.
Proof.
  intros Hk. apply set_eq. intros c. rewrite !elem_of_expand.
  by setoid_rewrite Hk.
Qed.

Lemma modules_upd (w : World) (i self : nat) (g : Obj -> Obj) :
  (∀ o, _modules (g o) = _modules o) -> modules (upd i g w) self = modules w self.
Proof.
  intros Hm. unfold modules.
  assert (size (objs (upd i g w)) = size (objs w)) as ->.
  { rewrite <- !size_dom. simpl. by rewrite dom_alter_L. }
  f_equal. generalize ({[self]} : gset nat). generalize (size (objs w)).
  intros n. induction n as [|n IH]; intros X; simpl; [done|].
  rewrite (expand_ext (upd i g w) w); [apply IH|].
  intros j. by apply kids_upd.
Qed.

Section Loop.
(** The body of the loop updates the visited module in place by [g], which
    keeps the class and is idempotent. *)
Variable g : Obj -> Obj.
Hypothesis g_cls : ∀ o, cls (g o) = cls o.
Hypothesis g_idem : ∀ o, g (g o) = g o.

Let body (w : World) (j : nat) : World :=
  if isinstance_Module w j then upd j g w else w.

Lemma loop_frame (l : list nat) (w : World) :
  classes (foldl body w l) = classes w
  ∧ tracers (foldl body w l) = tracers w
  ∧ graphs (foldl body w l) = graphs w
  ∧ warnings (foldl body w l) = warnings w.
Proof.
  revert w. induction l as [|a l IH]; intros w; simpl; [done|].
  destruct (IH (body w a)) as (-> & -> & -> & ->).
  unfold body. by destruct (isinstance_Module w a).
Qed.

Lemma loop_lookup (l : list nat) (w : World) (j : nat) :
  objs (foldl body w l) !! j
  = if decide (j ∈ l ∧ isinstance_Module w j = true)
    then g <$> objs w !! j else objs w !! j.
Proof.
  revert w. induction l as [|a l IH]; intros w; simpl.
  { done. }
  rewrite IH.
  assert (isinstance_Module (body w a) j = isinstance_Module w j) as ->.
  { unfold body. destruct (isinstance_Module w a); [|done]. by apply isinstance_upd. }
  assert (objs (body w a) !! j
          = if decide (a = j ∧ isinstance_Module w j = true)
            then g <$> objs w !! j else objs w !! j) as ->.
  { unfold body.
    destruct (decide (a = j ∧ isinstance_Module w j = true)) as [Hd|Hd].
    - destruct Hd as [Heq Hi]. subst a. rewrite Hi. apply lookup_upd_eq.
    - destruct (isinstance_Module w a) eqn:Ha; [|done].
      apply lookup_upd_ne. intros ->. by apply Hd. }
  clear IH.
  destruct (decide (j ∈ l ∧ isinstance_Module w j = true));
    destruct (decide (a = j ∧ isinstance_Module w j = true));
    destruct (decide (j ∈ a :: l ∧ isinstance_Module w j = true));
    destruct (objs w !! j) as [oj|]; simpl;
    try done; try (by rewrite g_idem); exfalso;
    match goal with
    | Hn : ¬ (_ ∈ _ :: _ ∧ _), Ha : _ = _ ∧ _ |- _ =>
        destruct Ha as [-> ?]; apply Hn; split; [left|done]
    | Hn : ¬ (_ ∈ _ :: _ ∧ _), Hl : _ ∈ _ ∧ _ |- _ =>
        destruct Hl; apply Hn; split; [by right|done]
    | Hc : _ ∈ _ :: _ ∧ _ |- _ =>
        destruct Hc as [[->|?]%elem_of_cons ?]; tauto
    end.
Qed.

End Loop.

Lemma for_modules_ext (f f' : nat -> World -> World) (w : World) (self : nat) :
  (∀ j w, f j w = f' j w) -> for_modules f w self = for_modules f' w self.
Proof.
  intros E. unfold for_modules. generalize (modules w self). intros l.
  revert w. induction l as [|a l IH]; intros w; simpl; [done|].
  rewrite E. apply IH.
Qed.

(** *** [reset_proxies] *)

Lemma reset_proxies_false (w : World) (self : nat) :
  reset_proxies w self false = upd self clear_proxies w.
Proof. unfold reset_proxies. by rewrite upd_upd. Qed.

Lemma reset_proxies_true (w : World) (self : nat) :
  reset_proxies w self true
  = for_modules (λ j w, upd j clear_proxies w) (upd self clear_proxies w) self.
Proof.
  unfold reset_proxies. rewrite upd_upd. apply for_modules_ext.
  intros j w'. by rewrite upd_upd.
Qed.

Lemma clear_proxies_idem (o : Obj) : clear_proxies (clear_proxies o) = clear_proxies o.
Proof. done. Qed.

Lemma reset_proxies_frame (w : World) (self : nat) (propagate : bool) :
  classes (reset_proxies w self propagate) = classes w
  ∧ tracers (reset_proxies w self propagate) = tracers w
  ∧ graphs (reset_proxies w self propagate) = graphs w
  ∧ warnings (reset_proxies w self propagate) = warnings w.
Proof.
  destruct propagate; [|by rewrite reset_proxies_false].
  rewrite reset_proxies_true. unfold for_modules.
  by destruct (loop_frame clear_proxies (modules (upd self clear_proxies w) self)
                 (upd self clear_proxies w)) as (-> & -> & -> & ->).
Qed.

(** Which objects [reset_proxies(propagate=True)] touches, and how. *)
Lemma reset_proxies_lookup (w : World) (self j : nat) :
  objs (reset_proxies w self true) !! j
  = if decide (j = self ∨ (j ∈ modules w self ∧ isinstance_Module w j = true))
    then clear_proxies <$> objs w !! j else objs w !! j.
Proof.
  rewrite reset_proxies_true. unfold for_modules.
  rewrite (loop_lookup clear_proxies); [|done|done].
  rewrite modules_upd; [|done]. rewrite isinstance_upd; [|done].
  destruct (decide (j = self)) as [->|Hne].
  - rewrite lookup_upd_eq. rewrite (decide_True (P := _ ∨ _)); [|by left].
    destruct (decide _); [|done]. by destruct (objs w !! self).
  - rewrite lookup_upd_ne; [|done].
    destruct (decide (j ∈ modules w self ∧ isinstance_Module w j = true)) as [Hd|Hd].
    + rewrite decide_True; [done|by right].
    + rewrite decide_False; [done|]. intros [?|?]; tauto.
Qed.

(** *** [clear] *)

Lemma clear_np_upd (w : World) (j : nat) :
  upd j (set_fake_inputs []) (upd j (set_fake_outputs [])
    (upd j (set_call_iter 0) (reset_proxies w j false)))
  = upd j clear_fields w.
Proof. rewrite reset_proxies_false. by rewrite !upd_upd. Qed.

Lemma clear_frame (w : World) (self : nat) (propagate : bool) :
  classes (clear w self propagate) = classes w
  ∧ tracers (clear w self propagate) = tracers w
  ∧ graphs (clear w self propagate) = graphs w
  ∧ warnings (clear w self propagate) = warnings w.
Proof.
  unfold clear, reset. cbv zeta. rewrite clear_np_upd.
  destruct propagate; [|done].
  rewrite (for_modules_ext _ (λ j w, upd j clear_fields w));
    [|intros; apply clear_np_upd].
  unfold for_modules.
  by destruct (loop_frame clear_fields (modules (upd self clear_fields w) self)
                 (upd self clear_fields w)) as (-> & -> & -> & ->).
Qed.

Lemma clear_lookup_self (w : World) (self : nat) (propagate : bool) :
  objs (clear w self propagate) !! self = clear_fields <$> objs w !! self.
Proof.
  unfold clear, reset. cbv zeta. rewrite clear_np_upd.
  destruct propagate; [|apply lookup_upd_eq].
  rewrite (for_modules_ext _ (λ j w, upd j clear_fields w));
    [|intros; apply clear_np_upd].
  unfold for_modules. rewrite (loop_lookup clear_fields); [|done|done].
  rewrite lookup_upd_eq. destruct (decide _); [|done].
  by destruct (objs w !! self).
Qed.

(** *** The claims about [next], [clear], the getters and the hook *)

(** C4.  [next(by=k)] with the default [propagate=False], for every [k] and in
    particular for every [k >= 1]: the cached Proxies are unset, the counter
    has grown by exactly [k], the placeholder lists and every graph are as
    before, and no other module is touched. *)
Theorem next_advances_counter_and_clears_proxies
    (w : World) (self : nat) (k : Z) (o : Obj) :
  objs w !! self = Some o ->
  isinstance_Module w self = true ->
  ∃ o', objs (next w self k false) !! self = Some o'
    ∧ _output o' = None ∧ _input o' = None
    ∧ call_iter o' = call_iter o + k
    ∧ fake_outputs o' = fake_outputs o ∧ fake_inputs o' = fake_inputs o
    ∧ graphs (next w self k false) = graphs w
    ∧ (∀ j, j ≠ self -> objs (next w self k false) !! j = objs w !! j).
Proof.
  intros Ho _. unfold next. rewrite reset_proxies_false.
  exists (clear_proxies (set_call_iter (call_iter o + k) o)).
  split; [|repeat split].
  - by rewrite !lookup_upd_eq, Ho.
  - intros j Hne. by rewrite !lookup_upd_ne.
Qed.

Lemma next_witness :
  ∃ o', objs (next Demo.scanned_world 11 3 false) !! 11%nat = Some o'
    ∧ call_iter o' = 3 ∧ fake_outputs o' = [VHost 1; VHost 2].
Proof.
  destruct (next_advances_counter_and_clears_proxies
              Demo.scanned_world 11 3 (Demo.the_obj Demo.scanned_world 11))
    as (o' & Ho' & _ & _ & Hc & Hf & _).
  - vm_compute. reflexivity.
  - vm_compute. reflexivity.
  - exists o'. split; [exact Ho'|]. rewrite Hc, Hf. vm_compute. split; reflexivity.
Defined.



(** After a collision the property sits at [nns_output], but its setter still
    reads [self.output], which is the original attribute by then: on module
    [layer] of the demo the read through [nns_output] works and the setter
    raises.  This is why the statement above asks for the name to be bound to
    the property. *)
Remark relocated_setter_reads_the_original_attribute :
  getattr Demo.traced_world 12 "output" = Ok (Demo.traced_world, VRef 13)
  ∧ (∃ w', getattr Demo.traced_world 12 "nns_output" = Ok (w', VProxy (mkProxy 0 0)))
  ∧ output_set Demo.traced_world 12 (VInt 0) = Raise AttributeError.
Proof.
  split; [vm_compute; reflexivity|]. split; [|vm_compute; reflexivity].
  eexists. vm_compute. reflexivity.
Qed.

(** C6.  With a non-empty placeholder list and a counter at or beyond its
    length the access succeeds, and the placeholder of the node it creates is
    the last element of the list.  The choice of the placeholder itself never
    fails there, whatever else the access needs. *)
Theorem access_beyond_scan_reuses_last_placeholder
    (k : PropKind) (w : World) (self : nat) (o : Obj)
    (tid : nat) (t : Tracer) (g : Graph) :
  objs w !! self = Some o ->
  isinstance_Module w self = true ->
  cached k o = None ->
  fakes k o ≠ [] ->
  Z.of_nat (length (fakes k o)) ≤ call_iter o ->
  tracer o = Some tid ->
  tracers w !! tid = Some t ->
  graphs w !! graph t = Some g ->
  ∃ x w' p n,
    last (fakes k o) = Some x
    ∧ select_fake (fakes k o) (call_iter o) = Ok x
    ∧ prop_get k w self = Ok (w', p)
    ∧ node_at w' p = Some n
    ∧ target n = "argument"
    ∧ node_value n = x.
Proof.
  intros Ho _ Hc Hne Hle Ht Htr Hg.
  destruct (last (fakes k o)) as [x|] eqn:Hlast;
    [|by apply last_None in Hlast].
  pose proof (select_fake_beyond _ _ _ Hlast Hle) as Hf.
  eexists x, _, _, _. split; [done|]. split; [done|].
  rewrite (prop_get_fresh k w self o tid t g x) by done.
  split; [done|]. split.
  - apply node_at_appended. rewrite graphs_upd, graphs_set_graphs.
    apply lookup_insert_eq.
  - by split.
Qed.

Lemma access_beyond_scan_witness :
  ∃ w' p n,
    output_get (next Demo.scanned_world 11 5 false) 11 = Ok (w', p)
    ∧ node_at w' p = Some n
    ∧ node_value n = VHost 2.
Proof.
  destruct (access_beyond_scan_reuses_last_placeholder POutput
              (next Demo.scanned_world 11 5 false) 11
              (Demo.the_obj (next Demo.scanned_world 11 5 false) 11)
              0%nat (mkTracer 0 1 0) [])
    as (x & w' & p & n & Hlast & _ & Hget & Hn & _ & Hv).
  - vm_compute. reflexivity.
  - vm_compute. reflexivity.
  - vm_compute. reflexivity.
  - vm_compute. discriminate.
  - vm_compute. discriminate.
  - vm_compute. reflexivity.
  - vm_compute. reflexivity.
  - vm_compute. reflexivity.
  - exists w', p, n. split; [exact Hget|]. split; [exact Hn|].
    rewrite Hv. vm_compute in Hlast. injection Hlast as <-. reflexivity.
Defined.

(** C7.  After [clear()], with or without propagation, the two placeholder
    lists of the module are empty and its counter is zero, and the next access
    of [.output] creates a new node whose placeholder value is [None]. *)
Theorem clear_forgets_placeholders
    (w : World) (self : nat) (propagate : bool) (o : Obj)
    (tid : nat) (t : Tracer) (g : Graph) :
  objs w !! self = Some o ->
  isinstance_Module w self = true ->
  tracer o = Some tid ->
  tracers w !! tid = Some t ->
  graphs w !! graph t = Some g ->
  ∃ o1,
    objs (clear w self propagate) !! self = Some o1
    ∧ fake_outputs o1 = [] ∧ fake_inputs o1 = [] ∧ call_iter o1 = 0
    ∧ ∃ w2 p n,
        output_get (clear w self propagate) self = Ok (w2, p)
        ∧ p_node p = length g
        ∧ node_at w2 p = Some n
        ∧ target n = "argument"
        ∧ node_value n = VNone.
Proof.
  intros Ho _ Ht Htr Hg.
  destruct (clear_frame w self propagate) as (_ & Htr' & Hg' & _).
  exists (clear_fields o).
  assert (objs (clear w self propagate) !! self = Some (clear_fields o)) as Ho1.
  { by rewrite clear_lookup_self, Ho. }
  split; [done|]. do 3 (split; [done|]).
  eexists _, _, _. unfold output_get.
  rewrite (prop_get_fresh POutput (clear w self propagate) self (clear_fields o)
             tid t g VNone); try done.
  - split; [done|]. split; [done|]. split.
    + apply node_at_appended. rewrite graphs_upd, graphs_set_graphs.
      apply lookup_insert_eq.
    + by split.
  - by rewrite Htr'.
  - by rewrite Hg'.
Qed.

Lemma clear_witness :
  ∃ w2 p n,
    output_get (clear Demo.scanned_world 11 true) 11 = Ok (w2, p)
    ∧ node_at w2 p = Some n
    ∧ node_value n = VNone.
Proof.
  destruct (clear_forgets_placeholders Demo.scanned_world 11 true
              (Demo.the_obj Demo.scanned_world 11) 0%nat (mkTracer 0 1 0) [])
    as (o1 & _ & _ & _ & _ & w2 & p & n & Hget & _ & Hn & _ & Hv).
  - vm_compute. reflexivity.
  - vm_compute. reflexivity.
  - vm_compute. reflexivity.
  - vm_compute. reflexivity.
  - vm_compute. reflexivity.
  - exists w2, p, n. split; [exact Hget|]. split; [exact Hn|exact Hv].
Defined.

(** *** The completion hook *)

Lemma hook_real (dfm : PyVal -> bool) (w : World) (module : nat)
    (input input_kwargs output : PyVal) :
  dfm input = false -> hook dfm w module input input_kwargs output = w.
Proof. intros H. unfold hook. by rewrite H. Qed.

Lemma hook_fake_lookup (dfm : PyVal -> bool) (w : World) (module : nat)
    (input input_kwargs output : PyVal) (j : nat) :
  dfm input = true ->
  objs (hook dfm w module input input_kwargs output) !! j
  = if decide (j = module)
    then (λ o, let o := clear_proxies o in
               let o := set_fake_outputs (fake_outputs o ++ [output]) o in
               set_fake_inputs (fake_inputs o ++ [VPair input input_kwargs]) o)
           <$> objs w !! j
    else if decide (j ∈ modules w module ∧ isinstance_Module w j = true)
         then clear_proxies <$> objs w !! j
         else objs w !! j.
Proof.
  intros H. unfold hook. rewrite H.
  destruct (decide (j = module)) as [->|Hne].
  - rewrite !lookup_upd_eq, reset_proxies_lookup.
    rewrite decide_True by (by left). by destruct (objs w !! module).
  - rewrite !lookup_upd_ne by done. rewrite reset_proxies_lookup.
    destruct (decide (j ∈ modules w module ∧ isinstance_Module w j = true)) as [Hd|Hd].
    + rewrite decide_True; [done|by right].
    + rewrite decide_False; [done|]. intros [?|?]; tauto.
Qed.

Lemma hook_frame (dfm : PyVal -> bool) (w : World) (module : nat)
    (input input_kwargs output : PyVal) :
  classes (hook dfm w module input input_kwargs output) = classes w
  ∧ tracers (hook dfm w module input input_kwargs output) = tracers w
  ∧ graphs (hook dfm w module input input_kwargs output) = graphs w
  ∧ warnings (hook dfm w module input input_kwargs output) = warnings w.
Proof.
  unfold hook. destruct (dfm input); [|done].
  apply (reset_proxies_frame w module true).
Qed.



(** *** The setter *)

Lemma getattr_property (k : PropKind) (w w' : World) (self : nat) (o : Obj)
    (name : string) (p : Proxy) :
  objs w !! self = Some o ->
  class_getattr (classes w) (cls o) name = Some (Property k) ->
  prop_get k w self = Ok (w', p) ->
  getattr w self name = Ok (w', VProxy p).
Proof.
  intros Ho Hm Hget. unfold getattr, lookup_obj. rewrite Ho. simpl.
  by rewrite Hm, Hget.
Qed.

Lemma set_cached_twice (k : PropKind) (p q : option Proxy) (o : Obj) :
  set_cached k p (set_cached k q o) = set_cached k p o.
Proof. by destruct k. Qed.

(** The Proxy that a read of the property yields, cached or new, and the
    state the read leaves behind. *)
Lemma current_proxy (k : PropKind) (w : World) (self : nat) (o : Obj)
    (tid : nat) (t : Tracer) (g : Graph) :
  objs w !! self = Some o ->
  0 ≤ call_iter o ->
  tracer o = Some tid ->
  tracers w !! tid = Some t ->
  graphs w !! graph t = Some g ->
  (∀ p, cached k o = Some p -> is_Some (node_at w p)) ->
  ∃ w1 p g1 gt,
    prop_get k w self = Ok (w1, p)
    ∧ prop_get k w1 self = Ok (w1, p)
    ∧ objs w1 !! self = Some (set_cached k (Some p) o)
    ∧ (∀ j, j ≠ self -> objs w1 !! j = objs w !! j)
    ∧ classes w1 = classes w
    ∧ tracers w1 = tracers w
    ∧ graphs w1 !! p_graph p = Some g1
    ∧ (p_node p < length g1)%nat
    ∧ graphs w1 !! graph t = Some gt.
Proof.
  intros Ho Hi Ht Htr Hg Hvalid. destruct (cached k o) as [p|] eqn:Hc.
  - destruct (Hvalid p eq_refl) as [n Hn]. unfold node_at in Hn.
    destruct (graphs w !! p_graph p) as [g1|] eqn:Hg1; [|done]. simpl in Hn.
    exists w, p, g1, g.
    assert (set_cached k (Some p) o = o) as ->.
    { destruct k, o; simpl in *; by subst. }
    rewrite (prop_get_cached k w self o p) by done.
    repeat split; try done. by eapply lookup_lt_Some.
  - destruct (select_fake_total (fakes k o) (call_iter o) Hi) as [fake Hf].
    eexists _, _, _, _.
    rewrite (prop_get_fresh k w self o tid t g fake) by done.
    assert (∀ W, objs (upd self (set_cached k (Some (mkProxy (graph t) (length g)))) W)
                   !! self
                 = set_cached k (Some (mkProxy (graph t) (length g))) <$> objs W !! self)
      as Hself by (intros; apply lookup_upd_eq).
    split; [done|]. split; [|split; [|split; [|split; [|split; [|split; [|split]]]]]].
    + eapply prop_get_cached; [rewrite Hself; simpl; by rewrite Ho|].
      apply cached_set_cached.
    + rewrite Hself. simpl. by rewrite Ho.
    + intros j Hne. by rewrite lookup_upd_ne.
    + done.
    + done.
    + rewrite graphs_upd, graphs_set_graphs. apply lookup_insert_eq.
    + simpl. rewrite length_app. simpl. lia.
    + rewrite graphs_upd, graphs_set_graphs. apply lookup_insert_eq.
Qed.



(** *** [wrap]: the forward hooks *)

Lemma bind_Ok {A B} (r : result A) (f : A -> result B) (b : B) :
  r ≫= f = Ok b -> ∃ a, r = Ok a ∧ f a = Ok b.
Proof. destruct r as [a|e]; simpl; [eauto|discriminate]. Qed.

Lemma orelse_Ok {A} (x : option A) (e : PyErr) (a : A) :
  orelse x e = Ok a -> x = Some a.
Proof. destruct x; simpl; congruence. Qed.

(** A successful read either returns the cached Proxy or caches a new one. *)
Lemma prop_get_inv (k : PropKind) (w w' : World) (i : nat) (p : Proxy) :
  prop_get k w i = Ok (w', p) ->
  w' = w ∨ ∃ gm, w' = upd i (set_cached k (Some p)) (set_graphs gm w).
Proof.
  unfold prop_get. intros (o & _ & H)%bind_Ok.
  destruct (cached k o); [left; congruence|].
  apply bind_Ok in H as (fake & _ & H). apply bind_Ok in H as (tid & _ & H).
  apply bind_Ok in H as (t & _ & H). apply bind_Ok in H as (g & _ & H).
  simpl in H. injection H as <- <-. right. eauto.
Qed.

Lemma hooks_set_cached (k : PropKind) (p : option Proxy) (o : Obj) :
  _forward_hooks (set_cached k p o) = _forward_hooks o.
Proof. by destruct k. Qed.

Lemma hooks_upd (w : World) (i j : nat) (f : Obj -> Obj) :
  (∀ o, _forward_hooks (f o) = _forward_hooks o) ->
  _forward_hooks <$> objs (upd i f w) !! j = _forward_hooks <$> objs w !! j.
Proof.
  intros Hf. destruct (decide (i = j)) as [->|Hne].
  - rewrite lookup_upd_eq. destruct (objs w !! j); simpl; [|done]. by rewrite Hf.
  - by rewrite lookup_upd_ne.
Qed.

Lemma prop_get_hooks (k : PropKind) (w w' : World) (i j : nat) (p : Proxy) :
  prop_get k w i = Ok (w', p) ->
  _forward_hooks <$> objs w' !! j = _forward_hooks <$> objs w !! j.
Proof.
  intros [->|[gm ->]]%prop_get_inv; [done|].
  rewrite hooks_upd; [done|]. intros. apply hooks_set_cached.
Qed.

Lemma getattr_hooks (w w' : World) (i j : nat) (name : string) (v : PyVal) :
  getattr w i name = Ok (w', v) ->
  _forward_hooks <$> objs w' !! j = _forward_hooks <$> objs w !! j.
Proof.
  unfold getattr. intros (o & _ & H)%bind_Ok.
  destruct (class_getattr (classes w) (cls o) name) as [[k|v0]|].
  - destruct (prop_get k w i) as [[w1 p]|e] eqn:Hp.
    + injection H as <- _. by eapply prop_get_hooks.
    + destruct e; try discriminate.
      apply bind_Ok in H as (? & _ & H). by injection H as <- _.
  - destruct (inst_dict o !! name); by injection H as <- _.
  - destruct (inst_dict o !! name); [by injection H as <- _|].
    apply bind_Ok in H as (? & _ & H). by injection H as <- _.
Qed.

Lemma getattr_default_hooks (w w' : World) (i j : nat) (name : string) (v : PyVal) :
  getattr_default w i name = Ok (w', v) ->
  _forward_hooks <$> objs w' !! j = _forward_hooks <$> objs w !! j.
Proof.
  unfold getattr_default. destruct (getattr w i name) as [[w1 v1]|e] eqn:Hg.
  - intros [= <- _]. by eapply getattr_hooks.
  - destruct e; try discriminate. by intros [= <- _].
Qed.

Lemma util_wrap_hooks (w w' : World) (i j : nat) :
  util_wrap w i = Ok w' ->
  _forward_hooks <$> objs w' !! j = _forward_hooks <$> objs w !! j.
Proof.
  unfold util_wrap. intros (o & _ & H)%bind_Ok.
  destruct (isinstance_Module w i); [by injection H as <-|].
  unfold type_new in H. injection H as <-. by rewrite hooks_upd.
Qed.

Lemma preserve_originals_hooks (w w' : World) (i j : nat) (c : string) (vo vi : PyVal) :
  preserve_originals w i c vo vi = Ok w' ->
  _forward_hooks <$> objs w' !! j = _forward_hooks <$> objs w !! j.
Proof.
  unfold preserve_originals, type_new. intros H.
  apply bind_Ok in H as (? & _ & H). apply bind_Ok in H as (? & _ & H).
  apply bind_Ok in H as (? & _ & H). apply bind_Ok in H as (? & _ & H).
  apply bind_Ok in H as (? & _ & H). injection H as <-. by rewrite hooks_upd.
Qed.

(** Every call of [wrap] that returns has registered one more hook. *)
Lemma wrap_registers_a_hook (w w' : World) (i : nat) (o : Obj) :
  objs w !! i = Some o ->
  wrap w i = Ok w' ->
  ∃ o', objs w' !! i = Some o' ∧ _forward_hooks o' = _forward_hooks o ++ [NnsightHook].
Proof.
  intros Ho. unfold wrap. intros H.
  apply bind_Ok in H as ([wa vo] & Ha%(getattr_default_hooks _ _ _ i) & H).
  apply bind_Ok in H as ([wb vi] & Hb%(getattr_default_hooks _ _ _ i) & H).
  apply bind_Ok in H as (ob & _ & H).
  apply bind_Ok in H as (wc & Hc%(util_wrap_hooks _ _ _ i) & H).
  apply bind_Ok in H as (wd & Hd & H).
  assert (_forward_hooks <$> objs wd !! i = _forward_hooks <$> objs wc !! i) as Hd'.
  { destruct (negb (is_none vo) || negb (is_none vi)).
    - by eapply preserve_originals_hooks.
    - by injection Hd as <-. }
  injection H as <-. unfold register_forward_hook. rewrite lookup_upd_eq.
  rewrite Hc, Hb, Ha, Ho in Hd'. clear Ha Hb Hc Hd.
  destruct (objs wd !! i) as [od|]; [|done]. simpl in *.
  injection Hd' as Hd'. eexists. split; [done|]. simpl. by rewrite Hd'.
Qed.

(** In shape-only mode one call of the module records its output once for
    every registered hook of [wrap]. *)
Lemma fire_forward_hooks_fake (dfm : PyVal -> bool) (w : World) (i : nat)
    (input input_kwargs output : PyVal) (o : Obj) :
  objs w !! i = Some o ->
  dfm input = true ->
  ∃ o', objs (fire_forward_hooks dfm w i input input_kwargs output) !! i = Some o'
    ∧ fake_outputs o'
      = fake_outputs o ++ replicate (nnsight_hooks (_forward_hooks o)) output
    ∧ fake_inputs o'
      = fake_inputs o
        ++ replicate (nnsight_hooks (_forward_hooks o)) (VPair input input_kwargs).
Proof.
  intros Ho Hfake. unfold fire_forward_hooks. rewrite Ho.
  generalize (_forward_hooks o). intros hs. revert w o Ho.
  induction hs as [|h hs IH]; intros w o Ho; simpl.
  - exists o. by rewrite !app_nil_r.
  - destruct h as [|tag]; simpl.
    + edestruct (IH (hook dfm w i input input_kwargs output)) as (o' & Ho' & Hout & Hin).
      { rewrite (hook_fake_lookup _ _ _ _ _ _ _ Hfake), decide_True, Ho by done.
        simpl. reflexivity. }
      exists o'. split; [done|]. rewrite Hout, Hin. simpl.
      by rewrite <- !app_assoc.
    + by apply IH.
Qed.




(** *** [wrap]: an object that has an [output] or [input] of its own *)

Lemma filter_not_in_nil (l : list nat) : filter (λ x, x ∉ ([] : list nat)) l = l.
Proof.
  induction l as [|a l IH]; [done|].
  rewrite filter_cons_True; [by rewrite IH|]. apply not_elem_of_nil.
Qed.

Lemma merge_mro_single (ct : gmap nat PyClass) (b : nat) :
  merge_mro ct [b] = mro_of ct b.
Proof. unfold merge_mro. simpl. apply filter_not_in_nil. Qed.

Lemma merge_mro_pair (ct : gmap nat PyClass) (a b : nat) :
  merge_mro ct [a; b] = mro_of ct a ++ filter (λ x, x ∉ mro_of ct a) (mro_of ct b).
Proof. unfold merge_mro. simpl. by rewrite filter_not_in_nil. Qed.

Lemma mro_of_Module (ct : gmap nat PyClass) :
  ct !! Module_id = Some Module_class -> mro_of ct Module_id = [Module_id].
Proof. intros HM. unfold mro_of. by rewrite HM. Qed.

Lemma fresh_class_ne (ct : gmap nat PyClass) (c : nat) (k : PyClass) :
  ct !! c = Some k -> c ≠ fresh (dom ct).
Proof.
  intros Hc E. apply (is_fresh (dom ct)). rewrite <- E. apply elem_of_dom. by exists k.
Qed.

Lemma fresh_class_None (ct : gmap nat PyClass) : ct !! fresh (dom ct) = None.
Proof. apply not_elem_of_dom. apply is_fresh. Qed.

Lemma find_attr_first (ct : gmap nat PyClass) (c : nat) (rest : list nat)
    (name : string) (k : PyClass) (a : ClassAttr) :
  ct !! c = Some k -> cdict k !! name = Some a ->
  find_attr ct (c :: rest) name = Some a.
Proof. intros Hc Ha. simpl. rewrite Hc. simpl. by rewrite Ha. Qed.

Lemma find_attr_skip (ct : gmap nat PyClass) (c : nat) (rest : list nat)
    (name : string) (k : PyClass) :
  ct !! c = Some k -> cdict k !! name = None ->
  find_attr ct (c :: rest) name = find_attr ct rest name.
Proof. intros Hc Ha. simpl. rewrite Hc. simpl. by rewrite Ha. Qed.

(** What [getattr(new_module_cls, name)] finds before any [setattr]: the
    attribute of [Module]. *)
Lemma class_getattr_fresh_subclass (ct : gmap nat PyClass) (name : string) :
  ct !! Module_id = Some Module_class ->
  class_getattr
    (<[fresh (dom ct) :=
         mkClass "Module.Preserved" [Module_id] ∅
                 (fresh (dom ct) :: merge_mro ct [Module_id])]> ct)
    (fresh (dom ct)) name
  = cdict Module_class !! name.
Proof.
  intros HM. unfold class_getattr, mro_of. rewrite lookup_insert_eq. simpl cmro.
  rewrite merge_mro_single, mro_of_Module by done.
  erewrite find_attr_skip; [|apply lookup_insert_eq|done].
  simpl. rewrite lookup_insert_ne by (by eapply not_eq_sym, fresh_class_ne).
  rewrite HM. simpl. by destruct (_ !! name).
Qed.

(** The collision branch runs to its end, and this is the world it leaves. *)
Lemma preserve_originals_Ok (w : World) (module : nat) (o : Obj) (k0 : PyClass)
    (base1 : nat) (original_cls : string) (vo vi : PyVal) :
  classes w !! Module_id = Some Module_class ->
  objs w !! module = Some o ->
  classes w !! cls o = Some k0 ->
  cbases k0 !! 1%nat = Some base1 ->
  let c1 := fresh (dom (classes w)) in
  let ct1 :=
    <[c1 := mkClass "Module.Preserved" [Module_id] (preserved_dict vo vi)
                    [c1; Module_id]]> (classes w) in
  let c2 := fresh (dom ct1) in
  let ct2 :=
    <[c2 := mkClass (cname k0 +:+ ".Preserved") [c1; base1] ∅
                    (c2 :: c1 :: Module_id
                        :: filter (λ x, x ∉ [c1; Module_id]) (mro_of ct1 base1))]> ct1 in
  preserve_originals w module original_cls vo vi
  = Ok (upd module (set_cls c2)
          (set_classes ct2
             (set_warnings (warnings w ++ [collision_warning original_cls]) w))).
Proof.
  intros HM Ho Hk0 Hb c1 ct1 c2 ct2.
  unfold preserve_originals, type_new. cbv beta iota zeta.
  change (classes (set_warnings _ w)) with (classes w).
  rewrite !class_getattr_fresh_subclass by done.
  change (cdict Module_class !! "output") with (Some (Property POutput)).
  change (cdict Module_class !! "input") with (Some (Property PInput)).
  simpl orelse. cbn [mbind result_bind].
  unfold class_setattr. rewrite !alter_insert_eq. cbn [cname cbases cdict cmro].
  rewrite merge_mro_single, (mro_of_Module (classes w)) by done.
  fold c1. fold (preserved_dict vo vi). fold ct1.
  unfold lookup_obj. change (objs (set_warnings _ w)) with (objs w). rewrite Ho.
  simpl orelse. cbn [mbind result_bind].
  assert (ct1 !! cls o = Some k0) as ->.
  { unfold ct1. rewrite lookup_insert_ne; [done|].
    by eapply not_eq_sym, fresh_class_ne. }
  simpl orelse. cbn [mbind result_bind]. rewrite Hb.
  simpl orelse. cbn [mbind result_bind].
  fold c2. rewrite merge_mro_pair.
  assert (mro_of ct1 c1 = [c1; Module_id]) as ->.
  { unfold mro_of, ct1. by rewrite lookup_insert_eq. }
  done.
Qed.

Lemma util_wrap_host (w : World) (module : nat) (o : Obj) :
  objs w !! module = Some o ->
  isinstance_Module w module = false ->
  let c0 := fresh (dom (classes w)) in
  let k0 := mkClass (from_option cname "" (classes w !! cls o)) [Module_id; cls o] ∅
                    (c0 :: merge_mro (classes w) [Module_id; cls o]) in
  util_wrap w module
  = Ok (upd module (λ o, Module__init__ (set_cls c0 o))
          (set_classes (<[c0 := k0]> (classes w)) w)).
Proof.
  intros Ho Hni c0 k0. unfold util_wrap, lookup_obj. rewrite Ho. simpl.
  by rewrite Hni.
Qed.

(** Without a property in the way, what the lookup returns is what the
    instance dict holds, when it holds the name. *)
Lemma getattr_default_inst_dict (w w' : World) (module : nat) (o : Obj)
    (name : string) (v v' : PyVal) :
  objs w !! module = Some o ->
  has_property w o name = false ->
  getattr_default w module name = Ok (w', v) ->
  inst_dict o !! name = Some v' ->
  v' = v.
Proof.
  intros Ho Hp Hget Hd. unfold getattr_default, getattr, lookup_obj in Hget.
  rewrite Ho in Hget. simpl in Hget. unfold has_property in Hp.
  destruct (class_getattr (classes w) (cls o) name) as [[k|v0]|];
    [done|rewrite Hd in Hget..]; congruence.
Qed.

Lemma getattr_plain (w : World) (module : nat) (o : Obj) (name : string) (v : PyVal) :
  objs w !! module = Some o ->
  class_getattr (classes w) (cls o) name = Some (Plain v) ->
  (∀ v', inst_dict o !! name = Some v' -> v' = v) ->
  getattr w module name = Ok (w, v).
Proof.
  intros Ho Hc Hd. unfold getattr, lookup_obj. rewrite Ho. simpl. rewrite Hc.
  destruct (inst_dict o !! name) as [v'|] eqn:E; [|done]. by rewrite (Hd v' eq_refl).
Qed.




End NnsightFacts.

(** ** More about the Invoker: prompts, batch size and the filler of [next] *)

Module EngineExtras.
Import Engine.

Section WithHost.
Context `{HostModel}.

Lemma step_prompts (g : Generator) (op : Op) :
  prompts (step g op) = prompts g ++ rendered_by op.
Proof. destruct op; simpl; [done|]. by rewrite app_nil_r. Qed.

Lemma run_prompts (ops : list Op) (g : Generator) :
  prompts (run g ops) = prompts g ++ concat (map rendered_by ops).
Proof.
  unfold run. revert g. induction ops as [|op ops IH]; intros g; simpl.
  - by rewrite app_nil_r.
  - rewrite IH, step_prompts. by rewrite <- app_assoc.
Qed.

Lemma run_nexts_batch_size (invs : list Invoker) (g : Generator) :
  batch_size (run g (map Next invs)) = batch_size g.
Proof.
  unfold run. revert g. induction invs as [|inv invs IH]; intros g; simpl; [done|].
  by rewrite IH.
Qed.

(** X1.  The prompt list only grows, and in order: whatever the session did
    before and does afterwards, the prompts rendered for one Invoker sit
    together, in the order of its examples, right after the prompts that were
    there when its scope was entered; [next()] adds none. *)
Theorem prompts_of_an_invoker_are_contiguous
    (g : Generator) (before after : list Op) (inv : Invoker) :
  prompts (run g (before ++ Enter inv :: after))
  = prompts (run g before) ++ rendered inv ++ concat (map rendered_by after)
  ∧ length (rendered inv) = examples inv
  ∧ ∀ nexts, prompts (run g (map Next nexts)) = prompts g.
Proof.
  split; [|split].
  - rewrite !run_prompts, map_app, concat_app. simpl. by rewrite <- app_assoc.
  - unfold rendered, examples. by rewrite !length_map.
  - intros nexts. rewrite run_prompts.
    assert (concat (map rendered_by (map Next nexts)) = []) as ->; [|by rewrite app_nil_r].
    induction nexts; simpl; done.
Qed.

(** X2.  The batch size that [next()] works with is the one of the Invoker
    entered last: after an entry and any number of [next()] calls the batch
    size is still that Invoker's example count, and a further [next()] runs
    the shape-only pass on a filler of exactly that many prompts, whichever
    Invoker it is called on and however many examples the session holds. *)
Theorem next_filler_follows_last_entered_invoker
    (g : Generator) (history : list Op) (inv : Invoker) (nexts : list Invoker)
    (caller : Invoker) :
  let g' := run g (history ++ Enter inv :: map Next nexts) in
  batch_size g' = Z.of_nat (examples inv)
  ∧ batch_size (next g' caller) = Z.of_nat (examples inv)
  ∧ model (next g' caller)
    = run_meta (prepare_inputs (filler (examples inv))) (args caller) (model g').
Proof.
  intros g'.
  assert (batch_size g' = Z.of_nat (examples inv)) as Hb.
  { unfold g'. rewrite EngineFacts.run_app.
    change (run ?g0 (Enter inv :: ?l)) with (run (step g0 (Enter inv)) l).
    by rewrite run_nexts_batch_size. }
  split; [done|]. split; [done|].
  unfold next, filler. simpl. by rewrite Hb, Nat2Z.id.
Qed.

End WithHost.

End EngineExtras.

(** ** More about the instrumented module *)

Module NnsightExtras.
Import Nnsight NnsightFacts.

(** *** The placeholder and the outcome of a read *)

Lemma select_fake_negative (l : list PyVal) (iter : Z) :
  iter < 0 -> - Z.of_nat (length l) ≤ iter ->
  ∃ x, l !! Z.to_nat (Z.of_nat (length l) + iter) = Some x ∧ select_fake l iter = Ok x.
Proof.
  intros Hneg Hge. unfold select_fake.
  destruct (decide (length l = 0%nat)) as [Hl|Hl]; [lia|].
  assert ((Z.of_nat (length l) <=? iter) = false) as -> by (apply Z.leb_gt; lia).
  unfold py_index.
  assert ((0 <=? iter) = false) as -> by (apply Z.leb_gt; lia).
  assert ((0 <=? Z.of_nat (length l) + iter) = true) as -> by (apply Z.leb_le; lia).
  destruct (lookup_lt_is_Some_2 l (Z.to_nat (Z.of_nat (length l) + iter))) as [x Hx];
    [lia|].
  exists x. by rewrite Hx.
Qed.

Lemma select_fake_below (l : list PyVal) (iter : Z) :
  l ≠ [] -> iter < - Z.of_nat (length l) -> select_fake l iter = Raise IndexError.
Proof.
  intros Hne Hlt. unfold select_fake.
  destruct (decide (length l = 0%nat)) as [Hl|Hl]; [by destruct l|].
  assert ((Z.of_nat (length l) <=? iter) = false) as -> by (apply Z.leb_gt; lia).
  unfold py_index.
  assert ((0 <=? iter) = false) as -> by (apply Z.leb_gt; lia).
  by assert ((0 <=? Z.of_nat (length l) + iter) = false) as -> by (apply Z.leb_gt; lia).
Qed.

(** X3.  Which placeholder the counter selects from a non-empty list [l] of
    length [n]: the entry at the counter while it is below [n], the last entry
    from [n] on, the entry [n + counter] for a negative counter down to [-n]
    (Python's indexing from the end), and an IndexError below [-n]. *)
Theorem placeholder_selected_by_counter (l : list PyVal) (iter : Z) :
  l ≠ [] ->
  let n := Z.of_nat (length l) in
  (0 ≤ iter < n -> ∃ x, l !! Z.to_nat iter = Some x ∧ select_fake l iter = Ok x)
  ∧ (n ≤ iter -> ∃ x, last l = Some x ∧ select_fake l iter = Ok x)
  ∧ (- n ≤ iter < 0 ->
       ∃ x, l !! Z.to_nat (n + iter) = Some x ∧ select_fake l iter = Ok x)
  ∧ (iter < - n -> select_fake l iter = Raise IndexError).
Proof.
  intros Hne n. split; [|split; [|split]].
  - intros [H0 Hlt]. by apply select_fake_within.
  - intros Hle. destruct (last l) as [x|] eqn:Hlast.
    + exists x. split; [done|]. by apply select_fake_beyond.
    + by apply last_None in Hlast.
  - intros [Hge Hneg]. by apply select_fake_negative.
  - intros Hlt. by apply select_fake_below.
Qed.

Lemma placeholder_selected_witness :
  select_fake [VHost 1; VHost 2] 0 = Ok (VHost 1)
  ∧ select_fake [VHost 1; VHost 2] 7 = Ok (VHost 2)
  ∧ select_fake [VHost 1; VHost 2] (-2) = Ok (VHost 1)
  ∧ select_fake [VHost 1; VHost 2] (-3) = Raise IndexError.
Proof.
  destruct (placeholder_selected_by_counter [VHost 1; VHost 2] 0) as (H1 & _);
    [discriminate|].
  destruct (placeholder_selected_by_counter [VHost 1; VHost 2] 7) as (_ & H2 & _);
    [discriminate|].
  destruct (placeholder_selected_by_counter [VHost 1; VHost 2] (-2)) as (_ & _ & H3 & _);
    [discriminate|].
  destruct (placeholder_selected_by_counter [VHost 1; VHost 2] (-3)) as (_ & _ & _ & H4);
    [discriminate|].
  split; [|split; [|split]].
  - destruct H1 as (x & Hx & ->); [simpl; lia|]. simpl in Hx. by injection Hx as <-.
  - destruct H2 as (x & Hx & ->); [simpl; lia|]. simpl in Hx. by injection Hx as <-.
  - destruct H3 as (x & Hx & ->); [simpl; lia|]. simpl in Hx. by injection Hx as <-.
  - apply H4. simpl. lia.
Defined.

Lemma prop_get_no_tracer (k : PropKind) (w : World) (self : nat) (o : Obj) (fake : PyVal) :
  objs w !! self = Some o ->
  cached k o = None ->
  select_fake (fakes k o) (call_iter o) = Ok fake ->
  tracer o = None ->
  prop_get k w self = Raise AttributeError.
Proof.
  intros Ho Hc Hf Ht. unfold prop_get, lookup_obj. rewrite Ho. simpl.
  rewrite Hc, Hf. simpl. by rewrite Ht.
Qed.

Lemma prop_get_index_error (k : PropKind) (w : World) (self : nat) (o : Obj) :
  objs w !! self = Some o ->
  cached k o = None ->
  select_fake (fakes k o) (call_iter o) = Raise IndexError ->
  prop_get k w self = Raise IndexError.
Proof.
  intros Ho Hc Hf. unfold prop_get, lookup_obj. rewrite Ho. simpl.
  by rewrite Hc, Hf.
Qed.



(** X5.  A counter below minus the length of a non-empty placeholder list is
    an IndexError wherever the property is read: from the getter, from an
    assignment, from [getattr(module, name, None)], which only swallows
    AttributeError, and therefore from a second [wrap] of the module; the
    missing session is not even looked at. *)
Theorem counter_below_range_raises_IndexError
    (w : World) (self : nat) (o : Obj) (value : PyVal) :
  objs w !! self = Some o ->
  class_getattr (classes w) (cls o) "output" = Some (Property POutput) ->
  _output o = None ->
  fake_outputs o ≠ [] ->
  call_iter o < - Z.of_nat (length (fake_outputs o)) ->
  output_get w self = Raise IndexError
  ∧ getattr_default w self "output" = Raise IndexError
  ∧ output_set w self value = Raise IndexError
  ∧ wrap w self = Raise IndexError.
Proof.
  intros Ho Hm Hc Hne Hlt.
  pose proof (select_fake_below _ _ Hne Hlt) as Hf.
  pose proof (prop_get_index_error POutput w self o Ho Hc Hf) as Hget.
  assert (getattr w self "output" = Raise IndexError) as Hga.
  { unfold getattr, lookup_obj. rewrite Ho. simpl. by rewrite Hm, Hget. }
  assert (getattr_default w self "output" = Raise IndexError) as Hgd.
  { unfold getattr_default. by rewrite Hga. }
  split; [done|]. split; [done|]. split.
  - unfold output_set, prop_set. simpl attr_name. by rewrite Hga.
  - unfold wrap. by rewrite Hgd.
Qed.

Lemma counter_below_range_witness :
  output_get (next Demo.scanned_world 11 (-3) false) 11 = Raise IndexError
  ∧ wrap (next Demo.scanned_world 11 (-3) false) 11 = Raise IndexError.
Proof.
  destruct (counter_below_range_raises_IndexError
              (next Demo.scanned_world 11 (-3) false) 11
              (Demo.the_obj (next Demo.scanned_world 11 (-3) false) 11) (VInt 0))
    as (H1 & _ & _ & H4).
  - vm_compute. reflexivity.
  - vm_compute. reflexivity.
  - vm_compute. reflexivity.
  - vm_compute. discriminate.
  - vm_compute. reflexivity.
  - split; [exact H1|exact H4].
Defined.

(** *** The scan and the read after it *)

(** X6.  What the hook records in shape-only mode is what a later read finds:
    on a module whose list for the property holds [n] entries, the hook
    appends its value as entry [n] and unsets the cached Proxy, so that a read
    at any counter from 0 to [n] creates a new node whose placeholder is the
    entry at that counter, the earlier entries being as they were. *)
Theorem read_after_scan_finds_the_recorded_placeholder
    (k : PropKind) (detect_fake_mode : PyVal -> bool) (w : World) (self : nat)
    (input input_kwargs output : PyVal) (o : Obj)
    (tid : nat) (t : Tracer) (g : Graph) :
  objs w !! self = Some o ->
  isinstance_Module w self = true ->
  detect_fake_mode input = true ->
  0 ≤ call_iter o ≤ Z.of_nat (length (fakes k o)) ->
  tracer o = Some tid ->
  tracers w !! tid = Some t ->
  graphs w !! graph t = Some g ->
  ∃ w' p n x,
    prop_get k (hook detect_fake_mode w self input input_kwargs output) self
    = Ok (w', p)
    ∧ p_node p = length g
    ∧ node_at w' p = Some n
    ∧ target n = "argument"
    ∧ node_value n = x
    ∧ (fakes k o ++ [recorded k input input_kwargs output]) !! Z.to_nat (call_iter o)
      = Some x.
Proof.
  intros Ho _ Hfake Hi Ht Htr Hg.
  set (wh := hook detect_fake_mode w self input input_kwargs output).
  set (oh := set_fake_inputs (fake_inputs o ++ [VPair input input_kwargs])
               (set_fake_outputs (fake_outputs o ++ [output]) (clear_proxies o))).
  assert (objs wh !! self = Some oh) as Hoh.
  { unfold wh. rewrite (hook_fake_lookup _ _ _ _ _ _ _ Hfake), decide_True, Ho by done.
    done. }
  destruct (hook_frame detect_fake_mode w self input input_kwargs output)
    as (_ & Htr' & Hg' & _). fold wh in Htr', Hg'.
  assert (fakes k oh = fakes k o ++ [recorded k input input_kwargs output]) as Hfk
    by (by destruct k).
  destruct (select_fake_within (fakes k oh) (call_iter oh)) as (x & Hx & Hsel).
  { apply Hi. }
  { rewrite Hfk, length_app. simpl. change (call_iter oh) with (call_iter o). lia. }
  eexists _, _, _, x.
  rewrite (prop_get_fresh k wh self oh tid t g x);
    [|done|by destruct k|done|done|by rewrite Htr'|by rewrite Hg'].
  split; [done|]. split; [done|]. split.
  { apply node_at_appended. rewrite graphs_upd, graphs_set_graphs.
    apply lookup_insert_eq. }
  split; [done|]. split; [done|]. by rewrite <- Hfk.
Qed.

Lemma read_after_scan_witness :
  ∃ w' p n,
    output_get (hook Demo.fake_tag0 (next Demo.scanned_world 11 2 false) 11
                  (VHost 0) (VHost 5) (VHost 6)) 11 = Ok (w', p)
    ∧ node_at w' p = Some n
    ∧ node_value n = VHost 6.
Proof.
  destruct (read_after_scan_finds_the_recorded_placeholder POutput Demo.fake_tag0
              (next Demo.scanned_world 11 2 false) 11 (VHost 0) (VHost 5) (VHost 6)
              (Demo.the_obj (next Demo.scanned_world 11 2 false) 11)
              0%nat (mkTracer 0 1 0) [])
    as (w' & p & n & x & Hget & _ & Hn & _ & Hv & Hx).
  - vm_compute. reflexivity.
  - vm_compute. reflexivity.
  - vm_compute. reflexivity.
  - vm_compute. split; discriminate.
  - vm_compute. reflexivity.
  - vm_compute. reflexivity.
  - vm_compute. reflexivity.
  - exists w', p, n. split; [exact Hget|]. split; [exact Hn|].
    rewrite Hv. vm_compute in Hx. injection Hx as <-. reflexivity.
Defined.

(** *** Propagation to the modules below *)

Lemma world_eq (a b : World) :
  objs a = objs b -> classes a = classes b -> tracers a = tracers b ->
  graphs a = graphs b -> warnings a = warnings b -> a = b.
Proof. destruct a, b. simpl. by intros -> -> -> -> ->. Qed.

Lemma NoDup_modules (w : World) (self : nat) : NoDup (modules w self).
Proof. apply NoDup_elements. Qed.

Section LoopOnce.
(** A loop body that updates the visited module by [g], which keeps the
    class; every module is visited once. *)
Variable g : Obj -> Obj.
Hypothesis g_cls : ∀ o, cls (g o) = cls o.

Let body (w : World) (j : nat) : World :=
  if isinstance_Module w j then upd j g w else w.

Lemma loop_once_frame (l : list nat) (w : World) :
  classes (foldl body w l) = classes w
  ∧ tracers (foldl body w l) = tracers w
  ∧ graphs (foldl body w l) = graphs w
  ∧ warnings (foldl body w l) = warnings w.
Proof.
  revert w. induction l as [|a l IH]; intros w; simpl; [done|].
  destruct (IH (body w a)) as (-> & -> & -> & ->).
  unfold body. by destruct (isinstance_Module w a).
Qed.

Lemma loop_once_lookup (l : list nat) (w : World) (j : nat) :
  NoDup l ->
  objs (foldl body w l) !! j
  = if decide (j ∈ l ∧ isinstance_Module w j = true)
    then g <$> objs w !! j else objs w !! j.
Proof.
  revert w. induction l as [|a l IH]; intros w Hnd; simpl; [done|].
  apply NoDup_cons in Hnd as [Ha Hnd]. rewrite IH by done.
  assert (isinstance_Module (body w a) j = isinstance_Module w j) as ->.
  { unfold body. destruct (isinstance_Module w a); [|done]. by apply isinstance_upd. }
  clear IH.
  destruct (decide (j ∈ l ∧ isinstance_Module w j = true)) as [[Hin Hi]|Hn].
  - rewrite decide_True by (split; [by right|done]).
    assert (a ≠ j) by (by intros ->).
    unfold body. destruct (isinstance_Module w a); [|done]. by rewrite lookup_upd_ne.
  - destruct (decide (a = j ∧ isinstance_Module w j = true)) as [[-> Hi]|Hn'].
    + rewrite decide_True by (split; [left|done]).
      unfold body. rewrite Hi. apply lookup_upd_eq.
    + rewrite decide_False.
      * unfold body. destruct (isinstance_Module w a) eqn:Hia; [|done].
        apply lookup_upd_ne. intros ->. tauto.
      * intros [[->|Hin]%elem_of_cons Hi]; tauto.
Qed.

End LoopOnce.

Lemma next_np_upd (w : World) (j : nat) (iteration : Z) :
  reset_proxies (upd j (λ o, set_call_iter (call_iter o + iteration) o) w) j false
  = upd j (next_fields iteration) w.
Proof. rewrite reset_proxies_false. by rewrite upd_upd. Qed.

Lemma next_true_lookup (w : World) (self j : nat) (iteration : Z) :
  objs (next w self iteration true) !! j
  = (if decide (j ∈ modules w self ∧ isinstance_Module w j = true)
     then next_fields 1 else id)
    <$> ((if decide (j = self) then next_fields iteration else id) <$> objs w !! j).
Proof.
  unfold next. cbv zeta. rewrite next_np_upd.
  rewrite (for_modules_ext _ (λ j w, upd j (next_fields 1) w))
    by (intros; apply next_np_upd).
  unfold for_modules.
  rewrite (loop_once_lookup (next_fields 1)); [|done|apply NoDup_modules].
  rewrite modules_upd by done. rewrite isinstance_upd by done.
  assert (objs (upd self (next_fields iteration) w) !! j
          = (if decide (j = self) then next_fields iteration else id) <$> objs w !! j)
    as ->.
  { destruct (decide (j = self)) as [->|Hne].
    - apply lookup_upd_eq.
    - rewrite lookup_upd_ne by done. by destruct (objs w !! j). }
  destruct (decide (j ∈ modules w self ∧ isinstance_Module w j = true)); [done|].
  by destruct (_ <$> objs w !! j).
Qed.

Lemma self_in_modules (w : World) (self : nat) : self ∈ modules w self.
Proof. apply elem_of_modules, reach_incl. set_solver. Qed.

(** X7.  [next(iteration=k, propagate=True)] does not advance the modules
    below by [k]: every wrapped module reachable from the module, the module
    itself included, receives [next()] with the default step 1.  The module's
    own counter therefore grows by [k + 1], the counter of every other wrapped
    module below it by exactly 1, and all of them lose their cached Proxies;
    placeholder lists, modules that are not wrapped or not below, and the
    graphs stay as they were. *)
Theorem next_with_propagation_steps_by_one_below
    (w : World) (self : nat) (k : Z) (o : Obj) :
  objs w !! self = Some o ->
  isinstance_Module w self = true ->
  let w' := next w self k true in
  (∃ o', objs w' !! self = Some o'
     ∧ call_iter o' = call_iter o + k + 1
     ∧ _output o' = None ∧ _input o' = None
     ∧ fake_outputs o' = fake_outputs o ∧ fake_inputs o' = fake_inputs o)
  ∧ (∀ j oj, j ≠ self -> descendant w self j -> isinstance_Module w j = true ->
       objs w !! j = Some oj ->
       ∃ oj', objs w' !! j = Some oj'
         ∧ call_iter oj' = call_iter oj + 1
         ∧ _output oj' = None ∧ _input oj' = None
         ∧ fake_outputs oj' = fake_outputs oj ∧ fake_inputs oj' = fake_inputs oj)
  ∧ (∀ j, ¬ descendant w self j ∨ isinstance_Module w j = false ->
       objs w' !! j = objs w !! j)
  ∧ graphs w' = graphs w.
Proof.
  intros Ho Hinst w'. subst w'.
  assert (self ∈ dom (objs w)) as Hdom by (apply elem_of_dom; by exists o).
  split; [|split; [|split]].
  - rewrite next_true_lookup, Ho.
    rewrite (decide_True (P := self = self)) by done.
    rewrite (decide_True (P := _ ∧ _)) by (split; [apply self_in_modules|done]).
    eexists. split; [done|]. simpl. by repeat split.
  - intros j oj Hne Hd Hj Hoj.
    rewrite next_true_lookup, Hoj.
    rewrite (decide_False (P := j = self)) by done.
    rewrite (decide_True (P := _ ∧ _)) by (split; [by apply modules_complete|done]).
    eexists. split; [done|]. by simpl.
  - intros j Hj.
    assert (j ≠ self) as Hne.
    { intros ->. destruct Hj as [Hj|Hj]; [apply Hj; constructor|congruence]. }
    rewrite next_true_lookup.
    rewrite (decide_False (P := j = self)) by done.
    rewrite (decide_False (P := _ ∧ _)); [by destruct (objs w !! j)|].
    intros [Hin Hi]. destruct Hj as [Hj|Hj]; [|congruence].
    apply Hj. by apply modules_sound.
  - unfold next. cbv zeta. rewrite next_np_upd.
    rewrite (for_modules_ext _ (λ j w, upd j (next_fields 1) w))
      by (intros; apply next_np_upd).
    unfold for_modules.
    by destruct (loop_once_frame (next_fields 1)
                   (modules (upd self (next_fields k) w) self)
                   (upd self (next_fields k) w)) as (_ & _ & -> & _).
Qed.

Lemma next_with_propagation_witness :
  (∃ o', objs (next Demo.traced_world 10 5 true) !! 10%nat = Some o' ∧ call_iter o' = 6)
  ∧ (∃ o', objs (next Demo.traced_world 10 5 true) !! 13%nat = Some o' ∧ call_iter o' = 1)
  ∧ objs (next Demo.traced_world 10 5 true) !! 14%nat = objs Demo.traced_world !! 14%nat.
Proof.
  destruct (next_with_propagation_steps_by_one_below Demo.traced_world 10 5
              (Demo.the_obj Demo.traced_world 10))
    as ((o' & Ho' & Hc & _) & Hbelow & Hout & _).
  - vm_compute. reflexivity.
  - vm_compute. reflexivity.
  - split; [|split].
    + exists o'. split; [exact Ho'|]. rewrite Hc. vm_compute. reflexivity.
    + destruct (Hbelow 13%nat (Demo.the_obj Demo.traced_world 13))
        as (oj' & Hoj' & Hcj & _).
      * discriminate.
      * apply (desc_child _ _ 12%nat 13%nat).
        -- apply (desc_child _ _ 10%nat 12%nat); [constructor|].
           vm_compute. repeat constructor.
        -- vm_compute. repeat constructor.
      * vm_compute. reflexivity.
      * vm_compute. reflexivity.
      * exists oj'. split; [exact Hoj'|]. rewrite Hcj. vm_compute. reflexivity.
    + apply Hout. right. vm_compute. reflexivity.
Defined.

(** *** [reset_proxies], [reset] and [clear] as one shape *)

Lemma reset_proxies_in_place (w : World) (self : nat) (p : bool) :
  reset_proxies w self p = in_place clear_proxies w self p.
Proof.
  destruct p; [apply reset_proxies_true|]. by rewrite reset_proxies_false.
Qed.

Lemma reset_np_upd (w : World) (j : nat) :
  upd j (set_call_iter 0) (reset_proxies w j false) = upd j reset_fields w.
Proof. rewrite reset_proxies_false. by rewrite upd_upd. Qed.

Lemma reset_in_place (w : World) (self : nat) (p : bool) :
  reset w self p = in_place reset_fields w self p.
Proof.
  unfold reset, in_place. cbv zeta. rewrite reset_np_upd.
  destruct p; [|done]. apply for_modules_ext. intros. apply reset_np_upd.
Qed.

Lemma clear_in_place (w : World) (self : nat) (p : bool) :
  clear w self p = in_place clear_fields w self p.
Proof.
  unfold clear, reset, in_place. cbv zeta. rewrite clear_np_upd.
  destruct p; [|done]. apply for_modules_ext. intros. apply clear_np_upd.
Qed.

Section InPlace.
Variable g : Obj -> Obj.
Hypothesis g_cls : ∀ o, cls (g o) = cls o.
Hypothesis g_modules : ∀ o, _modules (g o) = _modules o.
Hypothesis g_idem : ∀ o, g (g o) = g o.

Lemma in_place_lookup (w : World) (self j : nat) (p : bool) :
  objs (in_place g w self p) !! j
  = if decide (j = self ∨ (p = true ∧ j ∈ modules w self ∧ isinstance_Module w j = true))
    then g <$> objs w !! j else objs w !! j.
Proof.
  unfold in_place. cbv zeta. destruct p.
  - unfold for_modules. rewrite (loop_lookup g g_cls g_idem).
    rewrite modules_upd by done. rewrite isinstance_upd by done.
    destruct (decide (j = self)) as [->|Hne].
    + rewrite lookup_upd_eq. rewrite (decide_True (P := _ ∨ _)) by (by left).
      destruct (decide _); [|done]. destruct (objs w !! self); simpl; [|done].
      by rewrite g_idem.
    + rewrite lookup_upd_ne by done.
      destruct (decide (j ∈ modules w self ∧ isinstance_Module w j = true)) as [Hd|Hd].
      * rewrite decide_True; [done|]. right. tauto.
      * rewrite decide_False; [done|]. intros [?|(_ & ? & ?)]; tauto.
  - destruct (decide (j = self)) as [->|Hne].
    + rewrite lookup_upd_eq. by rewrite decide_True by (by left).
    + rewrite lookup_upd_ne by done. rewrite decide_False; [done|].
      intros [?|(? & _)]; [done|discriminate].
Qed.

Lemma in_place_frame (w : World) (self : nat) (p : bool) :
  classes (in_place g w self p) = classes w
  ∧ tracers (in_place g w self p) = tracers w
  ∧ graphs (in_place g w self p) = graphs w
  ∧ warnings (in_place g w self p) = warnings w.
Proof.
  unfold in_place. cbv zeta. destruct p; [|done]. unfold for_modules.
  by destruct (loop_frame g (modules (upd self g w) self) (upd self g w))
    as (-> & -> & -> & ->).
Qed.

Lemma in_place_lookup_fmap {A} (f : Obj -> A) (w : World) (self j : nat) (p : bool) :
  (∀ o, f (g o) = f o) ->
  f <$> objs (in_place g w self p) !! j = f <$> objs w !! j.
Proof.
  intros Hf. rewrite in_place_lookup. destruct (decide _); [|done].
  destruct (objs w !! j); simpl; [|done]. by rewrite Hf.
Qed.

Lemma in_place_dom (w : World) (self : nat) (p : bool) :
  dom (objs (in_place g w self p)) = dom (objs w).
Proof.
  apply set_eq. intros j. rewrite !elem_of_dom.
  rewrite <- (fmap_is_Some cls (objs (in_place g w self p) !! j)).
  rewrite (in_place_lookup_fmap cls) by done. apply fmap_is_Some.
Qed.

Lemma in_place_kids (w : World) (self j : nat) (p : bool) :
  kids (in_place g w self p) j = kids w j.
Proof.
  unfold kids. rewrite in_place_dom.
  pose proof (in_place_lookup_fmap _modules w self j p g_modules) as H.
  destruct (objs (in_place g w self p) !! j), (objs w !! j); simpl in H;
    try done. by injection H as ->.
Qed.

Lemma in_place_modules (w : World) (self x : nat) (p : bool) :
  modules (in_place g w self p) x = modules w x.
Proof.
  unfold modules.
  assert (size (objs (in_place g w self p)) = size (objs w)) as ->.
  { by rewrite <- !size_dom, in_place_dom. }
  f_equal. generalize ({[x]} : gset nat). generalize (size (objs w)).
  intros n. induction n as [|n IH]; intros X; simpl; [done|].
  rewrite (expand_ext (in_place g w self p) w); [apply IH|].
  intros j. apply in_place_kids.
Qed.

Lemma in_place_isinstance (w : World) (self j : nat) (p : bool) :
  isinstance_Module (in_place g w self p) j = isinstance_Module w j.
Proof.
  unfold isinstance_Module. destruct (in_place_frame w self p) as (-> & _).
  pose proof (in_place_lookup_fmap cls w self j p g_cls) as H.
  destruct (objs (in_place g w self p) !! j), (objs w !! j); simpl in H;
    try done. by injection H as ->.
Qed.

End InPlace.

(** One operation after another, on the same module and with the same flag. *)
Lemma in_place_compose (g1 g2 g3 : Obj -> Obj) (w : World) (self : nat) (p : bool) :
  (∀ o, cls (g1 o) = cls o) -> (∀ o, _modules (g1 o) = _modules o) ->
  (∀ o, g1 (g1 o) = g1 o) ->
  (∀ o, cls (g2 o) = cls o) -> (∀ o, _modules (g2 o) = _modules o) ->
  (∀ o, g2 (g2 o) = g2 o) ->
  (∀ o, cls (g3 o) = cls o) -> (∀ o, _modules (g3 o) = _modules o) ->
  (∀ o, g3 (g3 o) = g3 o) ->
  (∀ o, g2 (g1 o) = g3 o) ->
  in_place g2 (in_place g1 w self p) self p = in_place g3 w self p.
Proof.
  intros C1 M1 I1 C2 M2 I2 C3 M3 I3 H.
  destruct (in_place_frame g1 w self p) as (Ec & Et & Eg & Ew).
  destruct (in_place_frame g2 (in_place g1 w self p) self p) as (Ec' & Et' & Eg' & Ew').
  destruct (in_place_frame g3 w self p) as (Fc & Ft & Fg & Fw).
  apply world_eq; [|congruence..].
  apply map_eq. intros j.
  rewrite (in_place_lookup g2 C2 M2 I2), (in_place_lookup g3 C3 M3 I3).
  rewrite (in_place_modules g1 C1 M1 I1), (in_place_isinstance g1 C1 M1 I1).
  rewrite (in_place_lookup g1 C1 M1 I1).
  destruct (decide _); [|done].
  destruct (objs w !! j); simpl; [|done]. by rewrite H.
Qed.

(** X8.  [reset], with or without propagation: the module itself and, when
    propagating, every wrapped module reachable from it have their counter at
    zero and no cached Proxy afterwards, and keep their placeholder lists;
    every other object, and all graphs, are as before. *)
Theorem reset_zeroes_counters_and_keeps_placeholders
    (w : World) (self : nat) (propagate : bool) (o : Obj) :
  objs w !! self = Some o ->
  let w' := reset w self propagate in
  (∀ j oj, objs w !! j = Some oj ->
     j = self ∨ (propagate = true ∧ descendant w self j ∧ isinstance_Module w j = true) ->
     ∃ oj', objs w' !! j = Some oj'
       ∧ call_iter oj' = 0 ∧ _output oj' = None ∧ _input oj' = None
       ∧ fake_outputs oj' = fake_outputs oj ∧ fake_inputs oj' = fake_inputs oj)
  ∧ (∀ j, j ≠ self ->
       propagate = false ∨ ¬ descendant w self j ∨ isinstance_Module w j = false ->
       objs w' !! j = objs w !! j)
  ∧ graphs w' = graphs w.
Proof.
  intros Ho w'. subst w'. rewrite reset_in_place.
  assert (self ∈ dom (objs w)) as Hdom by (apply elem_of_dom; by exists o).
  split; [|split].
  - intros j oj Hoj Hj. rewrite (in_place_lookup reset_fields) by done.
    rewrite decide_True, Hoj.
    + by eexists.
    + destruct Hj as [?|(? & ? & ?)]; [by left|right].
      split; [done|]. split; [by apply modules_complete|done].
  - intros j Hne Hj. rewrite (in_place_lookup reset_fields) by done.
    rewrite decide_False; [done|].
    intros [?|(Hp & Hin & Hi)]; [done|].
    destruct Hj as [?|[Hj|?]]; [congruence| |congruence].
    apply Hj. by apply modules_sound.
  - by destruct (in_place_frame reset_fields w self propagate) as (_ & _ & -> & _).
Qed.

Lemma reset_witness :
  (∃ o', objs (reset (next Demo.scanned_world 11 4 true) 10 true) !! 11%nat = Some o'
         ∧ call_iter o' = 0 ∧ fake_outputs o' = [VHost 1; VHost 2])
  ∧ objs (reset (next Demo.scanned_world 11 4 true) 12 true) !! 11%nat
    = objs (next Demo.scanned_world 11 4 true) !! 11%nat.
Proof.
  split.
  - destruct (reset_zeroes_counters_and_keeps_placeholders
                (next Demo.scanned_world 11 4 true) 10 true
                (Demo.the_obj (next Demo.scanned_world 11 4 true) 10))
      as (Hin & _ & _).
    + vm_compute. reflexivity.
    + destruct (Hin 11%nat (Demo.the_obj (next Demo.scanned_world 11 4 true) 11))
        as (o' & Ho' & Hc & _ & _ & Hf & _).
      * vm_compute. reflexivity.
      * right. split; [reflexivity|]. split.
        -- apply (desc_child _ _ 10%nat 11%nat); [constructor|].
           vm_compute. repeat constructor.
        -- vm_compute. reflexivity.
      * exists o'. split; [exact Ho'|]. split; [exact Hc|].
        rewrite Hf. vm_compute. reflexivity.
  - destruct (reset_zeroes_counters_and_keeps_placeholders
                (next Demo.scanned_world 11 4 true) 12 true
                (Demo.the_obj (next Demo.scanned_world 11 4 true) 12))
      as (_ & Hout & _).
    + vm_compute. reflexivity.
    + apply Hout; [discriminate|]. right. left. intros Hd.
      apply modules_complete in Hd;
        [|apply elem_of_dom; eexists; vm_compute; reflexivity].
      revert Hd. vm_compute. intros Hd.
      apply (proj1 (list_elem_of_In _ _)) in Hd.
      destruct Hd as [Hd|[Hd|Hd]]; [discriminate Hd|discriminate Hd|destruct Hd].
Defined.

(** X9.  [clear(propagate=True)] empties the modules below as well: every
    wrapped module reachable from the module has empty placeholder lists, a
    zero counter and no cached Proxy afterwards, while a module that is not
    wrapped, or not reachable, is not touched; without propagation only the
    module itself changes. *)
Theorem clear_empties_every_wrapped_module_below
    (w : World) (self : nat) (propagate : bool) (o : Obj) :
  objs w !! self = Some o ->
  let w' := clear w self propagate in
  (∀ j oj, objs w !! j = Some oj ->
     j = self ∨ (propagate = true ∧ descendant w self j ∧ isinstance_Module w j = true) ->
     ∃ oj', objs w' !! j = Some oj'
       ∧ fake_outputs oj' = [] ∧ fake_inputs oj' = []
       ∧ call_iter oj' = 0 ∧ _output oj' = None ∧ _input oj' = None
       ∧ tracer oj' = tracer oj ∧ module_path oj' = module_path oj
       ∧ _forward_hooks oj' = _forward_hooks oj)
  ∧ (∀ j, j ≠ self ->
       propagate = false ∨ ¬ descendant w self j ∨ isinstance_Module w j = false ->
       objs w' !! j = objs w !! j)
  ∧ graphs w' = graphs w.
Proof.
  intros Ho w'. subst w'. rewrite clear_in_place.
  assert (self ∈ dom (objs w)) as Hdom by (apply elem_of_dom; by exists o).
  split; [|split].
  - intros j oj Hoj Hj. rewrite (in_place_lookup clear_fields) by done.
    rewrite decide_True, Hoj.
    + by eexists.
    + destruct Hj as [?|(? & ? & ?)]; [by left|right].
      split; [done|]. split; [by apply modules_complete|done].
  - intros j Hne Hj. rewrite (in_place_lookup clear_fields) by done.
    rewrite decide_False; [done|].
    intros [?|(Hp & Hin & Hi)]; [done|].
    destruct Hj as [?|[Hj|?]]; [congruence| |congruence].
    apply Hj. by apply modules_sound.
  - by destruct (in_place_frame clear_fields w self propagate) as (_ & _ & -> & _).
Qed.

Lemma clear_below_witness :
  (∃ o', objs (clear Demo.scanned_world 10 true) !! 11%nat = Some o'
         ∧ fake_outputs o' = [] ∧ fake_inputs o' = [])
  ∧ objs (clear Demo.scanned_world 10 false) !! 11%nat
    = objs Demo.scanned_world !! 11%nat.
Proof.
  split.
  - destruct (clear_empties_every_wrapped_module_below Demo.scanned_world 10 true
                (Demo.the_obj Demo.scanned_world 10)) as (Hin & _ & _).
    + vm_compute. reflexivity.
    + destruct (Hin 11%nat (Demo.the_obj Demo.scanned_world 11))
        as (o' & Ho' & Hfo & Hfi & _).
      * vm_compute. reflexivity.
      * right. split; [reflexivity|]. split.
        -- apply (desc_child _ _ 10%nat 11%nat); [constructor|].
           vm_compute. repeat constructor.
        -- vm_compute. reflexivity.
      * exists o'. split; [exact Ho'|]. split; [exact Hfo|exact Hfi].
  - destruct (clear_empties_every_wrapped_module_below Demo.scanned_world 10 false
                (Demo.the_obj Demo.scanned_world 10)) as (_ & Hout & _).
    + vm_compute. reflexivity.
    + apply Hout; [discriminate|]. left. reflexivity.
Defined.

(** X10.  The three operations form a chain, [reset_proxies] below [reset]
    below [clear]: applied to the same module with the same flag, each of them
    is idempotent, and a weaker one before or after a stronger one changes
    nothing about what the stronger one leaves. *)
Theorem stronger_operation_absorbs_the_weaker (w : World) (self : nat) (p : bool) :
  reset_proxies (reset_proxies w self p) self p = reset_proxies w self p
  ∧ reset (reset w self p) self p = reset w self p
  ∧ clear (clear w self p) self p = clear w self p
  ∧ reset (reset_proxies w self p) self p = reset w self p
  ∧ reset_proxies (reset w self p) self p = reset w self p
  ∧ clear (reset w self p) self p = clear w self p
  ∧ reset (clear w self p) self p = clear w self p
  ∧ clear (reset_proxies w self p) self p = clear w self p
  ∧ reset_proxies (clear w self p) self p = clear w self p.
Proof.
  rewrite !reset_proxies_in_place, !reset_in_place, !clear_in_place.
  repeat split; by apply in_place_compose.
Qed.

(** *** What every operation preserves *)

Lemma extends_refl (w : World) : extends w w.
Proof. intros gid g Hg. exists []. by rewrite app_nil_r. Qed.

Lemma extends_trans (w1 w2 w3 : World) : extends w1 w2 -> extends w2 w3 -> extends w1 w3.
Proof.
  intros H12 H23 gid g Hg. destruct (H12 gid g Hg) as [e1 H1].
  destruct (H23 gid _ H1) as [e2 H2]. exists (e1 ++ e2). by rewrite app_assoc.
Qed.

Lemma extends_same (w w' : World) : graphs w' = graphs w -> extends w w'.
Proof. intros E gid g Hg. exists []. by rewrite E, app_nil_r. Qed.

Lemma extends_node_at (w w' : World) (p : Proxy) (n : Node) :
  extends w w' -> node_at w p = Some n -> node_at w' p = Some n.
Proof.
  intros He. unfold node_at.
  destruct (graphs w !! p_graph p) as [g|] eqn:Hg; [|done]. simpl. intros Hn.
  destruct (He _ _ Hg) as [ext ->]. simpl. by apply lookup_app_l_Some.
Qed.

Lemma evolves_refl (w : World) : evolves w w.
Proof.
  split; [apply extends_refl|]. intros j o Ho. exists o. split; [done|].
  split; [done|]. by left.
Qed.

Lemma evolves_trans (w1 w2 w3 : World) : evolves w1 w2 -> evolves w2 w3 -> evolves w1 w3.
Proof.
  intros [E12 H12] [E23 H23]. split; [by eapply extends_trans|].
  intros j o3 Ho3. destruct (H23 j o3 Ho3) as (o2 & Ho2 & A23 & C23).
  destruct (H12 j o2 Ho2) as (o1 & Ho1 & A12 & C12).
  exists o1. split; [done|]. split; [tauto|].
  intros k p Hc. destruct (C23 k p Hc) as [Hc2|Hv]; [|by right].
  destruct (C12 k p Hc2) as [Hc1|[n Hn]]; [by left|right].
  exists n. by eapply extends_node_at.
Qed.

Lemma evolves_pointwise (w w' : World) :
  graphs w' = graphs w ->
  (∀ j o', objs w' !! j = Some o' ->
     ∃ o g, objs w !! j = Some o ∧ o' = g o ∧ quiet g) ->
  evolves w w'.
Proof.
  intros Hg H. split; [by apply extends_same|].
  intros j o' Ho'. destruct (H j o' Ho') as (o & g & Ho & -> & Hq).
  exists o. split; [done|]. destruct (Hq o) as [Ha Hc]. split; [done|].
  intros k p Hp. left. by apply Hc.
Qed.

Lemma quiet_id : quiet id.
Proof. intros o. split; [done|]. by intros. Qed.

Lemma quiet_compose (f g : Obj -> Obj) : quiet f -> quiet g -> quiet (f ∘ g).
Proof.
  intros Hf Hg o. destruct (Hf (g o)) as [Fa Fc]. destruct (Hg o) as [Ga Gc].
  split; [tauto|]. intros k p Hp. apply Gc, Fc, Hp.
Qed.

Lemma quiet_clear_proxies : quiet clear_proxies.
Proof. intros o. split; [done|]. by intros [] p. Qed.

Lemma quiet_reset_fields : quiet reset_fields.
Proof. intros o. split; [done|]. by intros [] p. Qed.

Lemma quiet_clear_fields : quiet clear_fields.
Proof. intros o. split; [done|]. by intros [] p. Qed.

Lemma quiet_next_fields (k : Z) : quiet (next_fields k).
Proof. intros o. split; [done|]. by intros [] p. Qed.

Lemma evolves_in_place (g : Obj -> Obj) (w : World) (self : nat) (p : bool) :
  (∀ o, cls (g o) = cls o) -> (∀ o, _modules (g o) = _modules o) ->
  (∀ o, g (g o) = g o) -> quiet g ->
  evolves w (in_place g w self p).
Proof.
  intros Hc Hm Hi Hq. apply evolves_pointwise.
  - by destruct (in_place_frame g w self p) as (_ & _ & -> & _).
  - intros j o'. rewrite (in_place_lookup g Hc Hm Hi).
    destruct (decide _) as [Hd|Hd].
    + intros (o & Ho & ->)%fmap_Some. by exists o, g.
    + intros Ho. exists o', id. split; [done|]. split; [done|apply quiet_id].
Qed.

Lemma evolves_next (w : World) (self : nat) (k : Z) (p : bool) :
  evolves w (next w self k p).
Proof.
  apply evolves_pointwise.
  - destruct p.
    + unfold next. cbv zeta. rewrite next_np_upd.
      rewrite (for_modules_ext _ (λ j w, upd j (next_fields 1) w))
        by (intros; apply next_np_upd).
      unfold for_modules.
      by destruct (loop_once_frame (next_fields 1)
                     (modules (upd self (next_fields k) w) self)
                     (upd self (next_fields k) w)) as (_ & _ & -> & _).
    + unfold next. cbv zeta. by rewrite next_np_upd.
  - intros j o'. destruct p.
    + rewrite next_true_lookup.
      intros (o1 & (o & Ho & ->)%fmap_Some & ->)%fmap_Some.
      eexists o, (_ ∘ _). split; [done|]. split; [done|].
      apply quiet_compose.
      * destruct (decide _) as [Hd|Hd]; [apply quiet_next_fields|apply quiet_id].
      * destruct (decide _) as [Hd|Hd]; [apply quiet_next_fields|apply quiet_id].
    + unfold next. cbv zeta. rewrite next_np_upd.
      destruct (decide (self = j)) as [->|Hne].
      * rewrite lookup_upd_eq. intros (o & Ho & ->)%fmap_Some.
        exists o, (next_fields k). split; [done|]. split; [done|apply quiet_next_fields].
      * rewrite lookup_upd_ne by done. intros Ho.
        exists o', id. split; [done|]. split; [done|apply quiet_id].
Qed.

Lemma evolves_hook (dfm : PyVal -> bool) (w : World) (module : nat)
    (input input_kwargs output : PyVal) :
  evolves w (hook dfm w module input input_kwargs output).
Proof.
  destruct (dfm input) eqn:Hfake; [|rewrite hook_real by done; apply evolves_refl].
  apply evolves_pointwise.
  - by destruct (hook_frame dfm w module input input_kwargs output) as (_ & _ & -> & _).
  - intros j o'. rewrite (hook_fake_lookup _ _ _ _ _ _ _ Hfake).
    destruct (decide (j = module)) as [Hd|Hd]; [|destruct (decide _) as [Hd'|Hd']].
    + intros (o & Ho & ->)%fmap_Some.
      exists o, (λ o, let o := clear_proxies o in
                      let o := set_fake_outputs (fake_outputs o ++ [output]) o in
                      set_fake_inputs (fake_inputs o ++ [VPair input input_kwargs]) o).
      split; [done|]. split; [done|].
      intros o0. split.
      * simpl. rewrite !length_app. simpl. lia.
      * by intros [] p.
    + intros (o & Ho & ->)%fmap_Some. exists o, clear_proxies.
      split; [done|]. split; [done|apply quiet_clear_proxies].
    + intros Ho. exists o', id. split; [done|]. split; [done|apply quiet_id].
Qed.

Lemma evolves_upd (w w' : World) (i : nat) (g : Obj -> Obj) :
  extends w w' -> objs w' = alter g i (objs w) -> quiet g -> evolves w w'.
Proof.
  intros He Ho Hq. split; [done|]. intros j o'. rewrite Ho.
  destruct (decide (i = j)) as [->|Hne].
  - rewrite lookup_alter_eq. intros (o & Hoj & ->)%fmap_Some.
    exists o. split; [done|]. destruct (Hq o) as [Ha Hc]. split; [done|].
    intros k p Hp. left. by apply Hc.
  - rewrite lookup_alter_ne by done. intros Hoj. exists o'. split; [done|].
    split; [done|]. by left.
Qed.

(** A successful read in full: the cached Proxy, or a new last node. *)
Lemma prop_get_inv_full (k : PropKind) (w w' : World) (i : nat) (p : Proxy) :
  prop_get k w i = Ok (w', p) ->
  w' = w
  ∨ ∃ gid g n,
      graphs w !! gid = Some g
      ∧ p = mkProxy gid (length g)
      ∧ w' = upd i (set_cached k (Some p))
               (set_graphs (<[gid := g ++ [n]]> (graphs w)) w).
Proof.
  unfold prop_get. intros (o & _ & H)%bind_Ok.
  destruct (cached k o); [left; congruence|].
  apply bind_Ok in H as (fake & _ & H). apply bind_Ok in H as (tid & _ & H).
  apply bind_Ok in H as (t & _ & H). apply bind_Ok in H as (g & Hg%orelse_Ok & H).
  simpl in H. injection H as <- <-. right. eauto 10.
Qed.

Lemma evolves_prop_get (k : PropKind) (w w' : World) (i : nat) (p : Proxy) :
  prop_get k w i = Ok (w', p) -> evolves w w'.
Proof.
  intros [->|(gid & g & n & Hg & -> & ->)]%prop_get_inv_full; [apply evolves_refl|].
  set (p := mkProxy gid (length g)).
  set (w' := upd i (set_cached k (Some p))
               (set_graphs (<[gid := g ++ [n]]> (graphs w)) w)).
  assert (extends w w') as He.
  { intros gid' g' Hg'. unfold w'. rewrite graphs_upd, graphs_set_graphs.
    destruct (decide (gid = gid')) as [<-|Hne].
    - rewrite lookup_insert_eq. exists [n]. congruence.
    - rewrite lookup_insert_ne by done. exists []. by rewrite app_nil_r. }
  assert (node_at w' p = Some n) as Hn.
  { apply node_at_appended. unfold w'. rewrite graphs_upd, graphs_set_graphs.
    apply lookup_insert_eq. }
  split; [done|]. intros j o'.
  destruct (decide (i = j)) as [->|Hne].
  - unfold w'. rewrite lookup_upd_eq. intros (o & Hoj & ->)%fmap_Some.
    exists o. split; [done|]. split; [by destruct k|].
    intros k' p' Hp'. destruct k, k'; simpl in *;
      try (by left); right; injection Hp' as <-; by exists n.
  - unfold w'. rewrite lookup_upd_ne by done. intros Hoj.
    exists o'. split; [done|]. split; [done|]. by left.
Qed.

Lemma getattr_inv (w w' : World) (i : nat) (name : string) (v : PyVal) :
  getattr w i name = Ok (w', v) ->
  w' = w ∨ ∃ k p, prop_get k w i = Ok (w', p) ∧ v = VProxy p.
Proof.
  unfold getattr. intros (o & _ & H)%bind_Ok.
  destruct (class_getattr (classes w) (cls o) name) as [[k|v0]|].
  - destruct (prop_get k w i) as [[w1 p]|e] eqn:Hp.
    + injection H as <- <-. right. eauto.
    + destruct e; try discriminate.
      apply bind_Ok in H as (? & _ & H). injection H as <- _. by left.
  - destruct (inst_dict o !! name); injection H as <- _; by left.
  - destruct (inst_dict o !! name); [injection H as <- _; by left|].
    apply bind_Ok in H as (? & _ & H). injection H as <- _. by left.
Qed.

Lemma evolves_getattr (w w' : World) (i : nat) (name : string) (v : PyVal) :
  getattr w i name = Ok (w', v) -> evolves w w'.
Proof.
  intros [->|(k & p & Hp & _)]%getattr_inv; [apply evolves_refl|].
  by eapply evolves_prop_get.
Qed.

Lemma evolves_getattr_default (w w' : World) (i : nat) (name : string) (v : PyVal) :
  getattr_default w i name = Ok (w', v) -> evolves w w'.
Proof.
  unfold getattr_default. destruct (getattr w i name) as [[w1 v1]|e] eqn:Hg.
  - intros [= <- _]. by eapply evolves_getattr.
  - destruct e; try discriminate. intros [= <- _]. apply evolves_refl.
Qed.

Lemma quiet_set_cached_None (k : PropKind) : quiet (set_cached k None).
Proof. intros o. split; [by destruct k|]. by intros [] p; destruct k. Qed.

Lemma evolves_prop_set (k : PropKind) (w w' : World) (i : nat) (value : PyVal) :
  prop_set k w i value = Ok w' -> evolves w w'.
Proof.
  unfold prop_set. intros H.
  apply bind_Ok in H as ([w1 v1] & H1%evolves_getattr & H).
  apply bind_Ok in H as (p1 & _ & H).
  apply bind_Ok in H as ([w2 v2] & H2%evolves_getattr & H).
  apply bind_Ok in H as (p2 & _ & H).
  apply bind_Ok in H as (g & Hg%orelse_Ok & H).
  simpl in H. injection H as <-.
  eapply evolves_trans; [exact H1|]. eapply evolves_trans; [exact H2|].
  eapply (evolves_upd _ _ i (set_cached k None)); [|done|apply quiet_set_cached_None].
  intros gid' g' Hg'. rewrite graphs_upd, graphs_set_graphs.
  destruct (decide (p_graph p1 = gid')) as [<-|Hne].
  - rewrite lookup_insert_eq. rewrite Hg in Hg'. injection Hg' as <-. by eexists.
  - rewrite lookup_insert_ne by done. exists []. by rewrite app_nil_r.
Qed.

Lemma evolves_util_wrap (w w' : World) (i : nat) :
  util_wrap w i = Ok w' -> evolves w w'.
Proof.
  unfold util_wrap. intros (o & _ & H)%bind_Ok.
  destruct (isinstance_Module w i); [injection H as <-; apply evolves_refl|].
  unfold type_new in H. injection H as <-.
  eapply (evolves_upd _ _ i); [by apply extends_same|done|].
  intros o0. split; [done|]. by intros [] p.
Qed.

Lemma evolves_preserve_originals (w w' : World) (i : nat) (c : string) (vo vi : PyVal) :
  preserve_originals w i c vo vi = Ok w' -> evolves w w'.
Proof.
  unfold preserve_originals, type_new. intros H.
  apply bind_Ok in H as (? & _ & H). apply bind_Ok in H as (? & _ & H).
  apply bind_Ok in H as (? & _ & H). apply bind_Ok in H as (? & _ & H).
  apply bind_Ok in H as (? & _ & H). injection H as <-.
  eapply (evolves_upd _ _ i); [by apply extends_same|done|].
  intros o0. split; [done|]. by intros [] p.
Qed.

Lemma evolves_wrap (w w' : World) (i : nat) : wrap w i = Ok w' -> evolves w w'.
Proof.
  unfold wrap. intros H.
  apply bind_Ok in H as ([wa vo] & Ha%evolves_getattr_default & H).
  apply bind_Ok in H as ([wb vi] & Hb%evolves_getattr_default & H).
  apply bind_Ok in H as (ob & _ & H).
  apply bind_Ok in H as (wc & Hc%evolves_util_wrap & H).
  apply bind_Ok in H as (wd & Hd & H).
  assert (evolves wc wd) as Hd'.
  { destruct (negb (is_none vo) || negb (is_none vi)).
    - by eapply evolves_preserve_originals.
    - injection Hd as <-. apply evolves_refl. }
  injection H as <-.
  eapply evolves_trans; [exact Ha|]. eapply evolves_trans; [exact Hb|].
  eapply evolves_trans; [exact Hc|]. eapply evolves_trans; [exact Hd'|].
  eapply (evolves_upd _ _ i); [by apply extends_same|done|].
  intros o0. split; [done|]. by intros [] p.
Qed.

Lemma evolves_op_step (dfm : PyVal -> bool) (w w' : World) :
  op_step dfm w w' -> evolves w w'.
Proof.
  intros [w0 self p|w0 self p|w0 self p|w0 self k p|w0 m i kw out
         |k w0 self w1 p H|k w0 self v w1 H|w0 m w1 H].
  - rewrite reset_proxies_in_place.
    by apply evolves_in_place; [..|apply quiet_clear_proxies].
  - rewrite reset_in_place. by apply evolves_in_place; [..|apply quiet_reset_fields].
  - rewrite clear_in_place. by apply evolves_in_place; [..|apply quiet_clear_fields].
  - apply evolves_next.
  - apply evolves_hook.
  - by eapply evolves_prop_get.
  - by eapply evolves_prop_set.
  - by eapply evolves_wrap.
Qed.

Lemma evolves_rtc (dfm : PyVal -> bool) (w w' : World) :
  rtc (op_step dfm) w w' -> evolves w w'.
Proof.
  induction 1 as [|w1 w2 w3 H12 _ IH]; [apply evolves_refl|].
  eapply evolves_trans; [|exact IH]. by eapply evolves_op_step.
Qed.

Lemma no_cache_valid (w : World) :
  map_Forall (λ _ o, _output o = None ∧ _input o = None) (objs w) -> proxies_valid w.
Proof.
  intros H j o k p Ho Hc. destruct (map_Forall_lookup_1 _ _ j o H Ho) as [H1 H2].
  destruct k; simpl in Hc; congruence.
Qed.

Lemma aligned_checked (w : World) :
  map_Forall (λ _ o, length (fake_inputs o) = length (fake_outputs o)) (objs w) ->
  lists_aligned w.
Proof. intros H j o Ho. by apply (map_Forall_lookup_1 _ _ j o H Ho). Qed.

(** X11.  The graphs are append-only under everything a module does: across
    any sequence of resets, clears, [next] calls, hook firings, reads,
    assignments and wraps, a Proxy keeps standing for the very same node. *)
Theorem nodes_are_only_ever_appended
    (detect_fake_mode : PyVal -> bool) (w w' : World) (p : Proxy) (n : Node) :
  rtc (op_step detect_fake_mode) w w' ->
  node_at w p = Some n ->
  node_at w' p = Some n.
Proof.
  intros [He _]%evolves_rtc Hn. by eapply extends_node_at.
Qed.

Lemma nodes_appended_witness :
  ∃ w', output_set (clear Demo.read_world 10 true) 11 (VInt 0) = Ok w'
    ∧ node_at w' (mkProxy 0 0)
      = Some (mkNode "argument" [VStr "h.output"; VInt 1; VInt 0; VInt 0] VNone).
Proof.
  destruct (output_set (clear Demo.read_world 10 true) 11 (VInt 0)) as [w'|e] eqn:Hset.
  - exists w'. split; [reflexivity|].
    apply (nodes_are_only_ever_appended Demo.fake_tag0 Demo.read_world w').
    + eapply rtc_l; [apply (step_clear _ Demo.read_world 10 true)|].
      apply rtc_once. apply (step_assign _ POutput _ 11 (VInt 0)). exact Hset.
    + vm_compute. reflexivity.
  - exfalso. revert Hset. vm_compute. discriminate.
Defined.

(** X12.  Cached Proxies never dangle: if every cached Proxy stands for an
    existing node, this is still so after any sequence of operations. *)
Theorem cached_proxies_always_stand_for_a_node
    (detect_fake_mode : PyVal -> bool) (w w' : World) :
  proxies_valid w ->
  rtc (op_step detect_fake_mode) w w' ->
  proxies_valid w'.
Proof.
  intros Hv [He Hobj]%evolves_rtc j o' k p Ho' Hc.
  destruct (Hobj j o' Ho') as (o & Ho & _ & Hcached).
  destruct (Hcached k p Hc) as [Hc0|Hnew]; [|done].
  destruct (Hv j o k p Ho Hc0) as [n Hn]. exists n. by eapply extends_node_at.
Qed.

Lemma cached_proxies_witness :
  proxies_valid (next Demo.read_world 12 1 true).
Proof.
  apply (cached_proxies_always_stand_for_a_node Demo.fake_tag0 Demo.traced_world).
  - apply no_cache_valid. apply map_Forall_to_list. vm_compute. repeat constructor.
  - eapply rtc_l; [apply (step_read _ POutput Demo.traced_world 11 Demo.read_world
                            (mkProxy 0 0))|].
    + vm_compute. reflexivity.
    + apply rtc_once. apply step_next.
Defined.

(** X13.  The two placeholder lists of a module always have the same length:
    the hook appends to both, [clear] and [Module.__init__] empty both, and
    nothing else touches them; so lists that are aligned stay aligned across
    any sequence of operations. *)
Theorem placeholder_lists_stay_aligned
    (detect_fake_mode : PyVal -> bool) (w w' : World) :
  lists_aligned w ->
  rtc (op_step detect_fake_mode) w w' ->
  lists_aligned w'.
Proof.
  intros Ha [_ Hobj]%evolves_rtc j o' Ho'.
  destruct (Hobj j o' Ho') as (o & Ho & Hal & _). apply Hal. by eapply Ha.
Qed.

Lemma placeholder_lists_witness :
  lists_aligned
    (hook Demo.fake_tag0 (clear Demo.scanned_world 12 true) 10
          (VHost 0) (VHost 5) (VHost 6)).
Proof.
  apply (placeholder_lists_stay_aligned Demo.fake_tag0 Demo.scanned_world).
  - apply aligned_checked. apply map_Forall_to_list. vm_compute. repeat constructor.
  - eapply rtc_l; [apply (step_clear _ Demo.scanned_world 12 true)|].
    apply rtc_once. apply step_hook.
Defined.

(** *** More about [wrap] *)





Lemma touches_only_refl (i : nat) (w : World) : touches_only i w w.
Proof.
  split; [done|]. split; [|done]. intros o' Ho'. by exists o'.
Qed.

Lemma touches_only_trans (i : nat) (w1 w2 w3 : World) :
  touches_only i w1 w2 -> touches_only i w2 w3 -> touches_only i w1 w3.
Proof.
  intros (A1 & B1 & C1 & D1) (A2 & B2 & C2 & D2).
  split; [|split; [|split]].
  - intros j Hne. by rewrite A2, A1.
  - intros o3 Ho3. destruct (B2 o3 Ho3) as (o2 & Ho2 & ? & ? & ?).
    destruct (B1 o2 Ho2) as (o1 & Ho1 & ? & ? & ?).
    exists o1. split; [done|]. split; [congruence|]. split; congruence.
  - intros c kc Hc. by apply C2, C1.
  - congruence.
Qed.

Lemma touches_only_upd (i : nat) (w w' : World) (g : Obj -> Obj) :
  objs w' = alter g i (objs w) ->
  (∀ o, inst_dict (g o) = inst_dict o) ->
  (∀ o, _parameters (g o) = _parameters o) ->
  (∀ o, _modules (g o) = _modules o) ->
  (∀ c kc, classes w !! c = Some kc -> classes w' !! c = Some kc) ->
  tracers w' = tracers w ->
  touches_only i w w'.
Proof.
  intros Ho Hd Hp Hm Hc Ht. split; [|split; [|done]].
  - intros j Hne. rewrite Ho. by apply lookup_alter_ne.
  - intros o'. rewrite Ho, lookup_alter_eq. intros (o & Hoi & ->)%fmap_Some.
    exists o. by rewrite Hd, Hp, Hm.
Qed.

Lemma touches_only_prop_get (k : PropKind) (w w' : World) (i : nat) (p : Proxy) :
  prop_get k w i = Ok (w', p) -> touches_only i w w' ∧ warnings w' = warnings w.
Proof.
  intros [->|[gm ->]]%prop_get_inv; [split; [apply touches_only_refl|done]|].
  split; [|done].
  by apply (touches_only_upd i _ _ (set_cached k (Some p))); try done; by destruct k.
Qed.

Lemma touches_only_getattr_default (w w' : World) (i : nat) (name : string) (v : PyVal) :
  getattr_default w i name = Ok (w', v) ->
  touches_only i w w' ∧ warnings w' = warnings w.
Proof.
  unfold getattr_default. destruct (getattr w i name) as [[w1 v1]|e] eqn:Hg.
  - intros [= <- _]. apply getattr_inv in Hg as [->|(k & p & Hp & _)].
    + split; [apply touches_only_refl|done].
    + by eapply touches_only_prop_get.
  - destruct e; try discriminate. intros [= <- _].
    split; [apply touches_only_refl|done].
Qed.

Lemma touches_only_util_wrap (w w' : World) (i : nat) :
  util_wrap w i = Ok w' -> touches_only i w w' ∧ warnings w' = warnings w.
Proof.
  unfold util_wrap. intros (o & _ & H)%bind_Ok.
  destruct (isinstance_Module w i);
    [injection H as <-; split; [apply touches_only_refl|done]|].
  unfold type_new in H. injection H as <-. split; [|done].
  eapply (touches_only_upd i); try done.
  intros c kc Hc. simpl.
  rewrite lookup_insert_ne; [done|]. by eapply not_eq_sym, fresh_class_ne.
Qed.

Lemma class_setattr_ne (c c' : nat) (name : string) (a : ClassAttr)
    (ct : gmap nat PyClass) :
  c ≠ c' -> class_setattr c name a ct !! c' = ct !! c'.
Proof. intros Hne. unfold class_setattr. by rewrite lookup_alter_ne. Qed.

Lemma touches_only_preserve_originals (w w' : World) (i : nat) (c : string)
    (vo vi : PyVal) :
  preserve_originals w i c vo vi = Ok w' ->
  touches_only i w w' ∧ warnings w' = warnings w ++ [collision_warning c].
Proof.
  unfold preserve_originals, type_new. intros H.
  apply bind_Ok in H as (? & _ & H). apply bind_Ok in H as (? & _ & H).
  apply bind_Ok in H as (? & _ & H). apply bind_Ok in H as (? & _ & H).
  apply bind_Ok in H as (? & _ & H). injection H as <-. split; [|done].
  eapply (touches_only_upd i); try done.
  intros c0 kc Hc.
  assert (fresh (dom (classes w)) ≠ c0) as N1
    by (by eapply not_eq_sym, fresh_class_ne).
  simpl.
  match goal with
  | |- <[_ := _]> ?ct !! _ = _ => assert (ct !! c0 = Some kc) as Hct
  end.
  { rewrite !class_setattr_ne by done. by rewrite lookup_insert_ne. }
  rewrite lookup_insert_ne; [done|]. by eapply not_eq_sym, fresh_class_ne.
Qed.



End NnsightExtras.
